(** * Bluetooth direction finding with MUSIC: a shallow embedding

    The notebook [direction-finding-sim.ipynb] simulates the angle-of-arrival
    estimation of a Bluetooth constant tone extension on a uniform linear
    antenna array.  Its numerical core is four functions:

    - [response_vec]          the ideal steering vector of the array,
    - [sample_cov]            the covariance of 50 synthetic noisy samples,
    - [music]                 the MUSIC pseudo-spectrum over 360 angles,
    - [draw_pseudo_spectrum]  the driver, which also extracts the peaks.

    Floating-point numbers are modelled by the real numbers of the Standard
    Library, complex numbers by pairs of reals.  The places where numpy leaves
    the finite numbers (the division by a zero denominator in [music], the
    logarithm of a non-positive power, the square root of a negative number)
    are written out.  numpy's global random generator is threaded through the
    code as an explicit state, and [np.linalg.eig] is an argument of [music]. *)

From Stdlib Require Import Reals Lra Lia List ZArith Bool Arith Sorted.
Import ListNotations.
Open Scope R_scope.

(* ================================================================= *)
(** * Complex numbers *)

Module Cplx.

Record C : Type := mkC { Re : R; Im : R }.

Definition C0 : C := mkC 0 0.
Definition C1 : C := mkC 1 0.
Definition Ci : C := mkC 0 1.
Definition RtoC (x : R) : C := mkC x 0.

Definition Cadd (z w : C) : C := mkC (Re z + Re w) (Im z + Im w).
Definition Copp (z : C) : C := mkC (- Re z) (- Im z).
Definition Cmul (z w : C) : C :=
  mkC (Re z * Re w - Im z * Im w) (Re z * Im w + Im z * Re w).
Definition Cconj (z : C) : C := mkC (Re z) (- Im z).
Definition Cnorm2 (z : C) : R := Re z * Re z + Im z * Im z.
Definition Cmod (z : C) : R := sqrt (Cnorm2 z).
Definition Cdiv (z w : C) : C :=
  mkC ((Re z * Re w + Im z * Im w) / Cnorm2 w)
      ((Im z * Re w - Re z * Im w) / Cnorm2 w).

(** [np.exp] on a complex argument. *)
Definition Cexp (z : C) : C :=
  mkC (exp (Re z) * cos (Im z)) (exp (Re z) * sin (Im z)).

End Cplx.
Import Cplx.

(* ================================================================= *)
(** * Outcomes of a Python computation *)

Inductive exn : Type :=
  | ZeroDivisionError   (* Python's float division by zero *)
  | ValueError          (* numpy: operands could not be broadcast, bad shapes *)
  | LinAlgError.        (* numpy.linalg: the array is not square, or holds a NaN *)

Inductive outcome (A : Type) : Type :=
  | Returned (a : A)
  | Raised (e : exn).
Arguments Returned {A} a.
Arguments Raised {A} e.

Definition bind {A B : Type} (m : outcome A) (k : A -> outcome B) : outcome B :=
  match m with
  | Returned a => k a
  | Raised e => Raised e
  end.

Notation "x <- m ;; k" := (bind m (fun x => k))
  (at level 61, m at next level, right associativity).
Notation "' p <- m ;; k" := (bind m (fun x => let p := x in k))
  (at level 61, p pattern, m at next level, right associativity).

Fixpoint mapM {A B : Type} (f : A -> outcome B) (l : list A) : outcome (list B) :=
  match l with
  | [] => Returned []
  | a :: l' => b <- f a ;; bs <- mapM f l' ;; Returned (b :: bs)
  end.

(* ================================================================= *)
(** * Extended values: what numpy stores when a result is not finite *)

Inductive xreal : Type :=
  | Fin (r : R)
  | PosInf
  | NegInf
  | NaN.

(** A complex power value: finite, or the [inf+nanj] of a division by zero. *)
Inductive xcomplex : Type :=
  | CFin (z : C)
  | CInfNaN.

Definition Rltb (a b : R) : bool := if Rlt_dec a b then true else false.
Definition Reqb (a b : R) : bool := if Req_dec_T a b then true else false.

Definition xltb (a b : xreal) : bool :=
  match a, b with
  | Fin x, Fin y => Rltb x y
  | Fin _, PosInf => true
  | NegInf, Fin _ => true
  | NegInf, PosInf => true
  | _, _ => false
  end.

Definition xeqb (a b : xreal) : bool :=
  match a, b with
  | Fin x, Fin y => Reqb x y
  | PosInf, PosInf => true
  | NegInf, NegInf => true
  | _, _ => false
  end.

Definition xleb (a b : xreal) : bool := xltb a b || xeqb a b.

(** The [.real] attribute of a complex array element. *)
Definition xreal_part (p : xcomplex) : xreal :=
  match p with
  | CFin z => Fin (Re z)
  | CInfNaN => PosInf
  end.

Definition log10 (x : R) : R := ln x / ln 10.

Definition np_log10 (a : xreal) : xreal :=
  match a with
  | Fin x => if Rlt_dec 0 x then Fin (log10 x)
             else if Req_dec_T x 0 then NegInf else NaN
  | PosInf => PosInf
  | NegInf => NaN
  | NaN => NaN
  end.

(** [k * a] for a finite [k > 0]. *)
Definition xscale (k : R) (a : xreal) : xreal :=
  match a with
  | Fin x => Fin (k * x)
  | other => other
  end.

(** [1 / z] on a complex array element: numpy gives [inf+nanj] at zero. *)
Definition np_reciprocal (z : C) : xcomplex :=
  if Req_dec_T (Cnorm2 z) 0 then CInfNaN else CFin (Cdiv C1 z).

(** Python's [x / y] on floats. *)
Definition py_truediv (x y : R) : outcome R :=
  if Req_dec_T y 0 then Raised ZeroDivisionError else Returned (x / y).

(** [np.sqrt] on a float.  Below zero numpy warns and gives NaN, which is
    [None] here; the computation goes on with it. *)
Definition np_sqrt (x : R) : option R :=
  if Rlt_dec x 0 then None else Some (sqrt x).

(* ================================================================= *)
(** * Arrays *)

(** A one-dimensional array is a list.  A two-dimensional array is its
    shape and its entries; entries outside the shape are not looked at. *)
Record mat : Type := mkMat { nrows : nat; ncols : nat; at_ : nat -> nat -> C }.

Definition np_zeros (r c : nat) : mat := mkMat r c (fun _ _ => C0).

(** [l.reshape((-1, 1))]: a column. *)
Definition reshape_col (l : list C) : mat :=
  mkMat (length l) 1 (fun i _ => nth i l C0).

(** A one-dimensional real array as an operand of a two-dimensional
    operation: shape [(1, n)]. *)
Definition as_row (v : list R) : mat :=
  mkMat 1 (length v) (fun _ j => RtoC (nth j v 0)).

Definition np_conjugate (A : mat) : mat :=
  mkMat (nrows A) (ncols A) (fun i j => Cconj (at_ A i j)).

Definition np_T (A : mat) : mat :=
  mkMat (ncols A) (nrows A) (fun i j => at_ A j i).

(** numpy's broadcasting of one dimension. *)
Definition bc_dim (a b : nat) : option nat :=
  if (a =? b)%nat then Some a
  else if (a =? 1)%nat then Some b
  else if (b =? 1)%nat then Some a
  else None.

Definition bc_idx (d i : nat) : nat := if (d =? 1)%nat then O else i.

(** [A + B] with broadcasting. *)
Definition np_add (A B : mat) : outcome mat :=
  match bc_dim (nrows A) (nrows B), bc_dim (ncols A) (ncols B) with
  | Some r, Some c =>
      Returned (mkMat r c (fun i j =>
        Cadd (at_ A (bc_idx (nrows A) i) (bc_idx (ncols A) j))
             (at_ B (bc_idx (nrows B) i) (bc_idx (ncols B) j))))
  | _, _ => Raised ValueError
  end.

Fixpoint Csum (f : nat -> C) (n : nat) : C :=
  match n with
  | O => C0
  | S n' => Cadd (Csum f n') (f n')
  end.

(** [A @ B]. *)
Definition np_matmul (A B : mat) : outcome mat :=
  if (ncols A =? nrows B)%nat
  then Returned (mkMat (nrows A) (ncols B)
                   (fun i k => Csum (fun j => Cmul (at_ A i j) (at_ B j k)) (ncols A)))
  else Raised ValueError.

(** [A /= s] for a real scalar [s]. *)
Definition np_idiv (A : mat) (s : R) : mat :=
  mkMat (nrows A) (ncols A) (fun i j => Cdiv (at_ A i j) (RtoC s)).

(** ** Arrays that a NaN has reached

    Arithmetic with a NaN gives a NaN.  In this program a NaN enters as the
    scale of the noise only, and then every entry of every array computed
    from the noise has a NaN part.  [AllNaN r c] is the array of shape
    [(r, c)] whose entries, if it has any, are NaN; what remains to be
    computed on it is its shape. *)
Inductive ndarray : Type :=
  | Finite (m : mat)
  | AllNaN (rows cols : nat).

Definition shape0 (a : ndarray) : nat :=
  match a with Finite m => nrows m | AllNaN r _ => r end.

Definition shape1 (a : ndarray) : nat :=
  match a with Finite m => ncols m | AllNaN _ c => c end.

Definition nd_conjugate (a : ndarray) : ndarray :=
  match a with
  | Finite m => Finite (np_conjugate m)
  | AllNaN r c => AllNaN r c
  end.

Definition nd_T (a : ndarray) : ndarray :=
  match a with
  | Finite m => Finite (np_T m)
  | AllNaN r c => AllNaN c r
  end.

(** [a + b] with broadcasting: every entry of the sum has an entry of each
    operand as a term. *)
Definition nd_add (a b : ndarray) : outcome ndarray :=
  match a, b with
  | Finite A, Finite B => S <- np_add A B ;; Returned (Finite S)
  | _, _ =>
      match bc_dim (shape0 a) (shape0 b), bc_dim (shape1 a) (shape1 b) with
      | Some r, Some c => Returned (AllNaN r c)
      | _, _ => Raised ValueError
      end
  end.

(** [a += b]: the sum must have the shape of [a]. *)
Definition nd_iadd (a b : ndarray) : outcome ndarray :=
  S <- nd_add a b ;;
  if ((shape0 S =? shape0 a) && (shape1 S =? shape1 a))%nat
  then Returned S else Raised ValueError.

(** [a @ b]: every entry of the product is a sum over the inner dimension,
    a zero when that dimension is empty. *)
Definition nd_matmul (a b : ndarray) : outcome ndarray :=
  match a, b with
  | Finite A, Finite B => P <- np_matmul A B ;; Returned (Finite P)
  | _, _ =>
      if (shape1 a =? shape0 b)%nat
      then Returned (if (shape1 a =? 0)%nat
                     then Finite (np_zeros (shape0 a) (shape1 b))
                     else AllNaN (shape0 a) (shape1 b))
      else Raised ValueError
  end.

(** [a /= s] for a real scalar [s]. *)
Definition nd_idiv (a : ndarray) (s : R) : ndarray :=
  match a with
  | Finite m => Finite (np_idiv m s)
  | AllNaN r c => AllNaN r c
  end.

(** [s * v] for a float [s] and a one-dimensional real array [v], as an
    operand of a two-dimensional operation: shape [(1, n)]. *)
Definition scaled_row (s : option R) (v : list R) : ndarray :=
  match s with
  | Some sigma => Finite (as_row (map (fun x => sigma * x) v))
  | None => AllNaN 1 (length v)
  end.

(** [A.item()]. *)
Definition np_item (A : mat) : outcome C :=
  if ((nrows A =? 1) && (ncols A =? 1))%nat
  then Returned (at_ A 0%nat 0%nat) else Raised ValueError.

(** [A[:, a:b]]. *)
Definition slice_cols (A : mat) (a b : nat) : mat :=
  let start := Nat.min a (ncols A) in
  let stop := Nat.min b (ncols A) in
  mkMat (nrows A) (stop - start) (fun i j => at_ A i (start + j)%nat).

Definition np_arange (lo hi : Z) : list Z :=
  map (fun i => (lo + Z.of_nat i)%Z) (seq 0 (Z.to_nat (hi - lo))).

(** [np.linspace(start, stop, num)], end point included. *)
Definition np_linspace (start stop : R) (num : nat) : list R :=
  map (fun i => INR i * ((stop - start) / INR (num - 1)) + start) (seq 0 num).

Definition deg2rad (x : R) : R := x * (PI / 180).

(* ================================================================= *)
(** * The random generator *)

(** The state of [np.random] is the sequence of standard normal draws it
    will give from here on. *)
Definition rng : Type := nat -> R.

Definition advance (n : nat) (g : rng) : rng := fun k => g (n + k)%nat.

(** [np.random.randn(n)]. *)
Definition randn (n : nat) (g : rng) : list R * rng :=
  (map g (seq 0 n), advance n g).

(* ================================================================= *)
(** * scipy.signal.find_peaks *)

(** The first index from [i_ahead] on, and at most [i_max], whose sample
    differs from [xi]. *)
Fixpoint look_ahead (x : list xreal) (xi : xreal) (i_max fuel i_ahead : nat) : nat :=
  match fuel with
  | O => i_ahead
  | S fuel' =>
      if (i_ahead <? i_max)%nat && xeqb (nth i_ahead x NaN) xi
      then look_ahead x xi i_max fuel' (S i_ahead)
      else i_ahead
  end.

(** The loop of [_local_maxima_1d]: the midpoints of the flat tops that rise
    on the left and fall on the right. *)
Fixpoint local_maxima_loop (x : list xreal) (i_max fuel i : nat) : list nat :=
  match fuel with
  | O => []
  | S fuel' =>
      if (i <? i_max)%nat then
        if xltb (nth (i - 1) x NaN) (nth i x NaN) then
          let i_ahead := look_ahead x (nth i x NaN) i_max (length x) (i + 1) in
          if xltb (nth i_ahead x NaN) (nth i x NaN)
          then ((i + (i_ahead - 1)) / 2)%nat
                 :: local_maxima_loop x i_max fuel' (i_ahead + 1)
          else local_maxima_loop x i_max fuel' (i + 1)
        else local_maxima_loop x i_max fuel' (i + 1)
      else []
  end.

Definition local_maxima_1d (x : list xreal) : list nat :=
  local_maxima_loop x (length x - 1) (length x) 1.

(** [find_peaks(x, height=h)[0]]: the local maxima of height at least [h]. *)
Definition find_peaks (x : list xreal) (height : R) : list nat :=
  filter (fun p => xleb (Fin height) (nth p x NaN)) (local_maxima_1d x).

(* ================================================================= *)
(** * The notebook *)

Definition speed_of_light : R := 299792458.

Definition FREQUENCY_DEVIATION : R := 250000.
Definition BLUETOOTH_FREQUENCY : R := 2450000000.
Definition CTE_FREQUENCY : R := BLUETOOTH_FREQUENCY + FREQUENCY_DEVIATION.
Definition CTE_WAVELENGTH : R := speed_of_light / CTE_FREQUENCY.
Definition CTE_TIME : R := 160 / 1000000.
Definition CTE_SAMPLES : nat := 50.
Definition NUM_SOURCES : nat := 1.
Definition NUM_ANGLES_TO_SEARCH : nat := 360.
Definition MAX_SEARCH_ANGLE : R := 90.

(** The phase factor of one antenna at position [a]. *)
Definition steering_entry (incident_angle a : R) : C :=
  Cexp (Cdiv (Cmul (Cmul (Cmul (mkC 0 2) (RtoC PI)) (RtoC a))
                   (RtoC (sin (deg2rad incident_angle))))
             (RtoC CTE_WAVELENGTH)).

Definition response_vec (num_antennas : Z) (incident_angle antenna_spacing : R) : mat :=
  let antennas := map (fun k => IZR k * antenna_spacing) (np_arange 0 num_antennas) in
  let steering := reshape_col (map (steering_entry incident_angle) antennas) in
  steering.

(** One sample of the array: [antenna_response] of shape [(N, 1)] plus the
    noise of shape [(N,)]; numpy broadcasts the two to [(N, N)]. *)
Definition iq_sample (antenna_response : mat) (sigma : option R) (noise : list R)
    : outcome ndarray :=
  nd_add (Finite antenna_response) (scaled_row sigma noise).

(** The body of the loop over the sample times. *)
Definition sample_step (antenna_response : mat) (snr : R) (num_antennas : nat)
    (st : ndarray * rng) : outcome (ndarray * rng) :=
  let '(cov, g) := st in
  q <- py_truediv (1 / 2) snr ;;
  let sigma := np_sqrt q in
  let '(noise, g') := randn num_antennas g in
  iq_sample_at_t <- iq_sample antenna_response sigma noise ;;
  p <- nd_matmul iq_sample_at_t (nd_T (nd_conjugate iq_sample_at_t)) ;;
  cov' <- nd_iadd cov p ;;
  Returned (cov', g').

Definition sample_loop (antenna_response : mat) (snr : R) (num_antennas : nat)
    (sample_times : list R) (st : ndarray * rng) : outcome (ndarray * rng) :=
  fold_left (fun acc (t : R) => st' <- acc ;; sample_step antenna_response snr num_antennas st')
            sample_times (Returned st).

Definition sample_cov (antenna_response : mat) (snr : R) (g : rng)
    : outcome (ndarray * rng) :=
  let sample_times := np_linspace 0 CTE_TIME CTE_SAMPLES in
  let num_antennas := (nrows antenna_response * ncols antenna_response)%nat in
  let cov := Finite (np_zeros num_antennas num_antennas) in
  '(cov, g') <- sample_loop antenna_response snr num_antennas sample_times (cov, g) ;;
  Returned (nd_idiv cov (INR CTE_SAMPLES), g').

(** [np.linalg.eig] on a square array of size [N]: the eigenvalues, of shape
    [(N,)], and the eigenvectors, the columns of an array of shape [(N, N)]. *)
Definition eig_routine : Type := mat -> (nat -> C) * (nat -> nat -> C).

(** What [np.linalg.eig] asks of its argument before it computes: the array
    is square and none of its entries is a NaN; it raises [LinAlgError]
    otherwise. *)
Definition eig_argument (a : ndarray) : outcome mat :=
  if negb (shape0 a =? shape1 a)%nat then Raised LinAlgError else
  match a with
  | Finite m => Returned m
  | AllNaN r c => if (r * c =? 0)%nat then Returned (np_zeros r c) else Raised LinAlgError
  end.

Definition non_noise_cov_eigvecs (eig : eig_routine) (covariance : mat) : mat :=
  let num_antennas := nrows covariance in
  let cov_eigvecs := mkMat num_antennas num_antennas (snd (eig covariance)) in
  slice_cols cov_eigvecs NUM_SOURCES num_antennas.

(** The pseudo-power at one search angle. *)
Definition signal_power (E : mat) (num_antennas : nat) (antenna_spacing angle : R)
    : outcome xcomplex :=
  let steering_at_test_angle := response_vec (Z.of_nat num_antennas) angle antenna_spacing in
  m1 <- np_matmul (np_T (np_conjugate steering_at_test_angle)) E ;;
  m2 <- np_matmul m1 (np_T (np_conjugate E)) ;;
  m3 <- np_matmul m2 steering_at_test_angle ;;
  d <- np_item m3 ;;
  Returned (np_reciprocal d).

Definition music (eig : eig_routine) (covariance : ndarray) (antenna_spacing : R)
    : outcome (list R * list xcomplex) :=
  let num_antennas := shape0 covariance in
  checked <- eig_argument covariance ;;
  let E := non_noise_cov_eigvecs eig checked in
  let search_angles := np_linspace (- MAX_SEARCH_ANGLE) MAX_SEARCH_ANGLE NUM_ANGLES_TO_SEARCH in
  signal_powers <- mapM (signal_power E num_antennas antenna_spacing) search_angles ;;
  Returned (search_angles, signal_powers).

(** [20 * np.log10(p)], the value that is plotted. *)
Definition decibels (p : xreal) : xreal := xscale 20 (np_log10 p).

(** The angles of the dashed lines of the plot: one for each peak that
    [find_peaks(signal_powers, height=1)] reports. *)
Definition peak_angles (search_angles : list R) (signal_powers : list xreal) : list R :=
  let peaks := find_peaks signal_powers 1 in
  map (fun peak => nth peak search_angles 0) peaks.

(** What [draw_pseudo_spectrum] hands to the plot. *)
Record plot : Type := mkPlot {
  plot_angles : list R;          (* the x values of the curve *)
  plot_db : list xreal;          (* the curve, in decibels *)
  estimated_angles : list R      (* one dashed line per peak *)
}.

Definition draw_pseudo_spectrum (eig : eig_routine) (num_antennas : Z)
    (incident_angle snr antenna_spacing : R) (g : rng) : outcome (plot * rng) :=
  let antenna_spacing := antenna_spacing / 100 in
  let antenna_response := response_vec num_antennas incident_angle antenna_spacing in
  '(sample_covariance, g') <- sample_cov antenna_response snr g ;;
  '(search_angles, signal_powers) <- music eig sample_covariance antenna_spacing ;;
  let signal_powers := map xreal_part signal_powers in
  let curve := map decibels signal_powers in
  Returned (mkPlot search_angles curve (peak_angles search_angles signal_powers), g').

(* ================================================================= *)
(** * Notions used in the statements *)

(** The phase of the antenna at position [a], in radians. *)
Definition phase (incident_angle a : R) : R :=
  2 * PI * a * sin (deg2rad incident_angle) / CTE_WAVELENGTH.

(** The standard deviation of the noise: [np.sqrt(0.5 / snr)]. *)
Definition noise_std (snr : R) : R := sqrt (1 / 2 / snr).

(** What one pass of the loop of [sample_cov] adds to entry [(i, k)] of the
    accumulator at sample time [t], for a column [A] of [N] entries: draw
    [t * N + j] of the generator is added to every entry of the column. *)
Definition gram_entry (A : mat) (sigma : R) (g : rng) (N t i k : nat) : C :=
  Csum (fun j =>
          Cmul (Cadd (at_ A i O) (RtoC (sigma * g (t * N + j)%nat)))
               (Cconj (Cadd (at_ A k O) (RtoC (sigma * g (t * N + j)%nat))))) N.

(** A steering vector as the pipeline passes it around: a column. *)
Definition column (A : mat) (N : nat) : Prop := nrows A = N /\ ncols A = 1%nat.

(** A matrix that equals its own conjugate transpose. *)
Definition hermitian (M : mat) : Prop :=
  nrows M = ncols M /\
  forall i k, (i < nrows M)%nat -> (k < nrows M)%nat -> at_ M i k = Cconj (at_ M k i).

(** The quadratic form [v* M v] of a matrix (given by its entries) of size [n]. *)
Definition quadf (n : nat) (m : nat -> nat -> C) (v : nat -> C) : C :=
  Csum (fun i => Csum (fun k => Cmul (Cmul (Cconj (v i)) (m i k)) (v k)) n) n.

(** [v* M v] is a non-negative real number for every vector [v]. *)
Definition positive_semidefinite (M : mat) : Prop :=
  forall v : nat -> C,
    Im (quadf (nrows M) (at_ M) v) = 0 /\ 0 <= Re (quadf (nrows M) (at_ M) v).

(** The denominator [a* E E* a] of the pseudo-power, for a column [a] and a
    matrix [E] whose columns span the subspace. *)
Definition music_denominator (E a : mat) : C :=
  Csum (fun j =>
    Cmul (Csum (fun c =>
            Cmul (Csum (fun i => Cmul (Cconj (at_ a i O)) (at_ E i c)) (nrows a))
                 (Cconj (at_ E j c))) (ncols E))
         (at_ a j O)) (nrows E).

(** The pseudo-power of [music] at one angle. *)
Definition pseudo_power (eig : eig_routine) (covariance : mat) (antenna_spacing angle : R)
    : xcomplex :=
  np_reciprocal
    (music_denominator (non_noise_cov_eigvecs eig covariance)
       (response_vec (Z.of_nat (nrows covariance)) angle antenna_spacing)).

(** [l..r] is a flat top of [x]: inside the array, higher than the sample
    before it, constant, and higher than the sample after it. *)
Definition flat_top (x : list xreal) (l r : nat) : Prop :=
  (1 <= l)%nat /\ (l <= r)%nat /\ (r + 1 < length x)%nat /\
  xltb (nth (l - 1) x NaN) (nth l x NaN) = true /\
  (forall j, (l < j <= r)%nat -> xeqb (nth j x NaN) (nth l x NaN) = true) /\
  xltb (nth (r + 1) x NaN) (nth l x NaN) = true.

(** [p] is the midpoint of a flat top. *)
Definition flat_top_mid (x : list xreal) (p : nat) : Prop :=
  exists l r, flat_top x l r /\ p = ((l + r) / 2)%nat.

(** The result of a computation, without the state it leaves behind. *)
Definition result_of {A S : Type} (m : outcome (A * S)) : outcome A :=
  match m with
  | Returned (a, _) => Returned a
  | Raised e => Raised e
  end.

(** Two calls of [sample_cov] on the same input, one after the other, the
    generator seeded once before the first. *)
Definition two_invocations (antenna_response : mat) (snr : R) (seeded : rng)
    : outcome (ndarray * ndarray) :=
  '(first, g1) <- sample_cov antenna_response snr seeded ;;
  '(second, _) <- sample_cov antenna_response snr g1 ;;
  Returned (first, second).

(* ================================================================= *)
(** * The specification's reading of two components *)

(** Section 4.2 of the specification, in its words: at each sample time one
    observation vector, element [i] of the steering vector plus a
    perturbation of its own; the result is the average of the outer products
    of the observation vectors with their conjugate transposes. *)
Definition observation (steering : mat) (sigma : R) (g : rng) (N t i : nat) : C :=
  Cadd (at_ steering i O) (RtoC (sigma * g (t * N + i)%nat)).

Definition estimate_covariance_spec (steering : mat) (snr : R) (g : rng) : mat :=
  let N := nrows steering in
  mkMat N N (fun i k =>
    Cdiv (Csum (fun t => Cmul (observation steering (noise_std snr) g N t i)
                              (Cconj (observation steering (noise_std snr) g N t k)))
               CTE_SAMPLES)
         (RtoC (INR CTE_SAMPLES))).

(** Section 4.4 of the specification, in its words: the powers are converted
    to decibels, and a grid point is reported when its decibel value is
    strictly greater than both neighbours and exceeds the threshold. *)
Definition spec_peak (db : list xreal) (db_threshold : R) (i : nat) : bool :=
  (1 <=? i)%nat && (i + 1 <? length db)%nat &&
  xltb (nth (i - 1) db NaN) (nth i db NaN) &&
  xltb (nth (i + 1) db NaN) (nth i db NaN) &&
  xltb (Fin db_threshold) (nth i db NaN).

Definition extract_angles_spec (grid : list R) (spectrum : list xreal) (db_threshold : R)
    : list R :=
  let db := map decibels spectrum in
  map (fun i => nth i grid 0) (filter (spec_peak db db_threshold) (seq 0 (length db))).

(* ================================================================= *)
(** * Concrete inputs *)

(** The search grid of [music]. *)
Definition search_grid : list R :=
  np_linspace (- MAX_SEARCH_ANGLE) MAX_SEARCH_ANGLE NUM_ANGLES_TO_SEARCH.

(** A generator whose draws alternate between [1] and [-1]. *)
Definition alternating : rng := fun k => if Nat.even k then 1 else -1.

(** A generator whose first draw is [1] and whose other draws are [0]. *)
Definition pulse : rng := fun k => if (k =? 0)%nat then 1 else 0.

(** The covariance [np.diag((1, 2, 3))]. *)
Definition diag3 : mat :=
  mkMat 3 3 (fun i j => if (i =? j)%nat then RtoC (INR (S i)) else C0).

(** The decomposition of a diagonal matrix as [np.linalg.eig] gives it: the
    eigenvalues in the order of the diagonal, the unit vectors as eigenvectors. *)
Definition eig_in_order : eig_routine :=
  fun A => (fun k => at_ A k k, fun i j => if (i =? j)%nat then C1 else C0).

(** A spectrum of 360 positive powers with one peak, of height [1.1], at
    index 1. *)
Definition low_peak : list xreal :=
  Fin (1 / 2) :: Fin (11 / 10) :: repeat (Fin (1 / 2)) 358.

(* ================================================================= *)
(** * Notions used in the further properties *)

(** A finite sum of real numbers. *)
Fixpoint Rsum (f : nat -> R) (n : nat) : R :=
  match n with
  | O => 0
  | S n' => Rsum f n' + f n'
  end.

(** A power that [music] can produce: positive, or infinite. *)
Definition positive_power (q : xcomplex) : Prop :=
  q = CInfNaN \/ exists p : R, 0 < p /\ q = CFin (mkC p 0).

(** A value of the plotted curve that is a number or plus infinity. *)
Definition plottable (v : xreal) : Prop :=
  v = PosInf \/ exists y : R, v = Fin y.

(** Entry [(i, k)] of [E E*]. *)
Definition projector_entry (E : mat) (i k : nat) : C :=
  Csum (fun c => Cmul (at_ E i c) (Cconj (at_ E k c))) (ncols E).

(** Component [c] of [E* a], for a column [a]. *)
Definition projection (E a : mat) (c : nat) : C :=
  Csum (fun i => Cmul (Cconj (at_ a i O)) (at_ E i c)) (nrows E).

(** Another decomposition of a diagonal matrix of size 3: the last two
    eigenpairs in the other order, one eigenvector with the opposite sign. *)
Definition eig_reordered : eig_routine :=
  fun A =>
    (fun k => match k with
              | 1%nat => at_ A 2%nat 2%nat
              | 2%nat => at_ A 1%nat 1%nat
              | _ => at_ A k k
              end,
     fun i j => match j with
                | 1%nat => if (i =? 2)%nat then Copp C1 else C0
                | 2%nat => if (i =? 1)%nat then C1 else C0
                | _ => if (i =? j)%nat then C1 else C0
                end).

(** A value of [signal_powers.real] in the driver: positive, or infinite. *)
Definition power_value (v : xreal) : Prop :=
  v = PosInf \/ exists p : R, 0 < p /\ v = Fin p.

(** A spectrum of three powers with its maximum in the middle. *)
Definition one_hump : list xreal := [Fin (1 / 2); Fin 2; Fin (1 / 2)].

(** A spectrum of 360 powers with two peaks of height 2, at indices 1 and 3. *)
Definition two_peaks : list xreal :=
  Fin (1 / 2) :: Fin 2 :: Fin (1 / 2) :: Fin 2 :: repeat (Fin (1 / 2)) 356.
(* ================================================================= *)
(** * Complex arithmetic *)

Lemma C_eq (z w : C) : Re z = Re w -> Im z = Im w -> z = w.
Proof. destruct z, w; simpl; intros -> ->; reflexivity. Qed.

Ltac cring := apply C_eq; simpl; ring.

Lemma Cadd_0_l z : Cadd C0 z = z.
Proof. cring. Qed.

Lemma Cadd_0_r z : Cadd z C0 = z.
Proof. cring. Qed.

Lemma Cadd_comm z w : Cadd z w = Cadd w z.
Proof. cring. Qed.

Lemma Cadd_assoc z w u : Cadd z (Cadd w u) = Cadd (Cadd z w) u.
Proof. cring. Qed.

Lemma Cmul_comm z w : Cmul z w = Cmul w z.
Proof. cring. Qed.

Lemma Cmul_assoc z w u : Cmul z (Cmul w u) = Cmul (Cmul z w) u.
Proof. cring. Qed.

Lemma Cmul_0_l z : Cmul C0 z = C0.
Proof. cring. Qed.

Lemma Cmul_0_r z : Cmul z C0 = C0.
Proof. cring. Qed.

Lemma Cmul_add_distr_l z w u : Cmul z (Cadd w u) = Cadd (Cmul z w) (Cmul z u).
Proof. cring. Qed.

Lemma Cmul_add_distr_r z w u : Cmul (Cadd z w) u = Cadd (Cmul z u) (Cmul w u).
Proof. cring. Qed.

Lemma Cconj_add z w : Cconj (Cadd z w) = Cadd (Cconj z) (Cconj w).
Proof. cring. Qed.

Lemma Cconj_mul z w : Cconj (Cmul z w) = Cmul (Cconj z) (Cconj w).
Proof. cring. Qed.

Lemma Cconj_conj z : Cconj (Cconj z) = z.
Proof. cring. Qed.

Lemma Cconj_0 : Cconj C0 = C0.
Proof. cring. Qed.

Lemma Cconj_RtoC x : Cconj (RtoC x) = RtoC x.
Proof. cring. Qed.

Lemma Cmul_conj_self z : Cmul z (Cconj z) = RtoC (Cnorm2 z).
Proof. unfold Cnorm2; cring. Qed.

Lemma Cnorm2_nonneg z : 0 <= Cnorm2 z.
Proof. unfold Cnorm2; nra. Qed.

Lemma Cdiv_RtoC z (s : R) : s <> 0 -> Cdiv z (RtoC s) = mkC (Re z / s) (Im z / s).
Proof.
  intros Hs. unfold Cdiv, Cnorm2, RtoC; simpl.
  apply C_eq; simpl; field; nra.
Qed.

Lemma Cconj_div_RtoC z (s : R) :
  Cconj (Cdiv z (RtoC s)) = Cdiv (Cconj z) (RtoC s).
Proof. unfold Cdiv, Cnorm2, Cconj, RtoC; simpl. apply C_eq; simpl; unfold Rdiv; ring. Qed.

(** Euler's formula, as [Cexp] computes it on an imaginary argument. *)
Lemma Cexp_imaginary (phi : R) : Cexp (Cmul Ci (RtoC phi)) = mkC (cos phi) (sin phi).
Proof.
  unfold Cexp, Cmul, Ci, RtoC; simpl.
  replace (0 * phi - 1 * 0) with 0 by ring.
  replace (0 * 0 + 1 * phi) with phi by ring.
  rewrite exp_0. apply C_eq; simpl; ring.
Qed.

Lemma Cmod_unit_phase (phi : R) : Cmod (mkC (cos phi) (sin phi)) = 1.
Proof.
  unfold Cmod, Cnorm2; simpl.
  replace (cos phi * cos phi + sin phi * sin phi) with 1.
  - apply sqrt_1.
  - generalize (sin2_cos2 phi). unfold Rsqr. lra.
Qed.

(* ================================================================= *)
(** * The steering vector *)

Lemma CTE_FREQUENCY_value : CTE_FREQUENCY = 2450250000.
Proof. unfold CTE_FREQUENCY, BLUETOOTH_FREQUENCY, FREQUENCY_DEVIATION. lra. Qed.

Lemma CTE_WAVELENGTH_pos : 0 < CTE_WAVELENGTH.
Proof.
  unfold CTE_WAVELENGTH. rewrite CTE_FREQUENCY_value. unfold speed_of_light.
  apply Rdiv_lt_0_compat; lra.
Qed.

Lemma steering_entry_phase theta a :
  steering_entry theta a = mkC (cos (phase theta a)) (sin (phase theta a)).
Proof.
  pose proof CTE_WAVELENGTH_pos as Hw.
  unfold steering_entry. rewrite Cdiv_RtoC by lra.
  unfold Cexp, phase; simpl.
  replace (((0 * PI - 2 * 0) * a - (0 * 0 + 2 * PI) * 0) * sin (deg2rad theta)
           - ((0 * PI - 2 * 0) * 0 + (0 * 0 + 2 * PI) * a) * 0) with 0 by ring.
  replace (((0 * PI - 2 * 0) * a - (0 * 0 + 2 * PI) * 0) * 0
           + ((0 * PI - 2 * 0) * 0 + (0 * 0 + 2 * PI) * a) * sin (deg2rad theta))
    with (2 * PI * a * sin (deg2rad theta)) by ring.
  replace (0 / CTE_WAVELENGTH) with 0 by (field; lra).
  rewrite exp_0. apply C_eq; simpl; ring.
Qed.

Lemma np_arange_length n : length (np_arange 0 n) = Z.to_nat n.
Proof. unfold np_arange. rewrite length_map, length_seq. f_equal. lia. Qed.

Lemma nth_map_in {A B : Type} (f : A -> B) (l : list A) (k : nat) (d : B) (d' : A) :
  (k < length l)%nat -> nth k (map f l) d = f (nth k l d').
Proof.
  intros Hk. rewrite (nth_indep _ d (f d')) by (rewrite length_map; exact Hk).
  apply map_nth.
Qed.

Lemma np_arange_nth n k :
  (k < Z.to_nat n)%nat -> nth k (np_arange 0 n) 0%Z = Z.of_nat k.
Proof.
  intros Hk. unfold np_arange.
  replace (n - 0)%Z with n by lia.
  rewrite (nth_map_in _ _ _ _ O) by (rewrite length_seq; exact Hk).
  rewrite seq_nth by exact Hk. reflexivity.
Qed.

Lemma response_vec_nrows n theta d : nrows (response_vec n theta d) = Z.to_nat n.
Proof. unfold response_vec; simpl. rewrite !length_map. apply np_arange_length. Qed.

Lemma response_vec_ncols n theta d : ncols (response_vec n theta d) = 1%nat.
Proof. reflexivity. Qed.

Lemma response_vec_entry n theta d k j :
  (k < Z.to_nat n)%nat ->
  at_ (response_vec n theta d) k j = steering_entry theta (INR k * d).
Proof.
  intros Hk. unfold response_vec, reshape_col, at_.
  rewrite map_map.
  rewrite (nth_map_in _ _ _ _ 0%Z) by (rewrite np_arange_length; exact Hk).
  rewrite np_arange_nth by exact Hk.
  rewrite <- INR_IZR_INZ. reflexivity.
Qed.

(* ================================================================= *)
(** * Finite sums *)

Lemma Csum_ext (f h : nat -> C) (n : nat) :
  (forall i, (i < n)%nat -> f i = h i) -> Csum f n = Csum h n.
Proof.
  induction n as [|n IH]; intros H; simpl; [reflexivity|].
  rewrite IH by (intros; apply H; lia).
  rewrite H by lia. reflexivity.
Qed.

Lemma Csum_zero (n : nat) : Csum (fun _ => C0) n = C0.
Proof. induction n as [|n IH]; simpl; [reflexivity|]. rewrite IH. cring. Qed.

Lemma Csum_add (f h : nat -> C) (n : nat) :
  Csum (fun i => Cadd (f i) (h i)) n = Cadd (Csum f n) (Csum h n).
Proof. induction n as [|n IH]; simpl; [cring|]. rewrite IH. cring. Qed.

Lemma Csum_mul_l (c : C) (f : nat -> C) (n : nat) :
  Csum (fun i => Cmul c (f i)) n = Cmul c (Csum f n).
Proof. induction n as [|n IH]; simpl; [cring|]. rewrite IH. cring. Qed.

Lemma Csum_mul_r (c : C) (f : nat -> C) (n : nat) :
  Csum (fun i => Cmul (f i) c) n = Cmul (Csum f n) c.
Proof. induction n as [|n IH]; simpl; [cring|]. rewrite IH. cring. Qed.

Lemma Csum_conj (f : nat -> C) (n : nat) :
  Cconj (Csum f n) = Csum (fun i => Cconj (f i)) n.
Proof. induction n as [|n IH]; simpl; [cring|]. rewrite <- IH. cring. Qed.

Lemma Csum_shift (f : nat -> C) (n : nat) :
  Csum f (S n) = Cadd (f O) (Csum (fun i => f (S i)) n).
Proof.
  induction n as [|n IH]; [simpl; cring|].
  change (Csum f (S (S n))) with (Cadd (Csum f (S n)) (f (S n))).
  rewrite IH. simpl. cring.
Qed.

Lemma Csum_swap (f : nat -> nat -> C) (n m : nat) :
  Csum (fun i => Csum (fun j => f i j) m) n = Csum (fun j => Csum (fun i => f i j) n) m.
Proof.
  induction n as [|n IH]; simpl.
  - symmetry. apply Csum_zero.
  - rewrite IH. symmetry. apply Csum_add.
Qed.

Lemma Csum_div_RtoC (f : nat -> C) (n : nat) (s : R) :
  Csum (fun i => Cdiv (f i) (RtoC s)) n = Cdiv (Csum f n) (RtoC s).
Proof.
  induction n as [|n IH]; simpl.
  - unfold Cdiv, C0; simpl. apply C_eq; simpl; unfold Rdiv; ring.
  - rewrite IH. unfold Cdiv, Cadd; simpl. apply C_eq; simpl; unfold Rdiv; ring.
Qed.

(* ================================================================= *)
(** * Broadcasting *)

Lemma bc_dim_refl n : bc_dim n n = Some n.
Proof. unfold bc_dim. rewrite Nat.eqb_refl. reflexivity. Qed.

Lemma bc_dim_1_r n : bc_dim n 1 = Some n.
Proof. unfold bc_dim. destruct (n =? 1)%nat; reflexivity. Qed.

Lemma bc_dim_1_l n : bc_dim 1 n = Some n.
Proof.
  unfold bc_dim. destruct (1 =? n)%nat eqn:E; [|reflexivity].
  apply Nat.eqb_eq in E. subst. reflexivity.
Qed.

Lemma bc_idx_lt d i : (i < d)%nat -> bc_idx d i = i.
Proof.
  unfold bc_idx. intros H. destruct (d =? 1)%nat eqn:E; [|reflexivity].
  apply Nat.eqb_eq in E. lia.
Qed.

Lemma bc_idx_1 i : bc_idx 1 i = O.
Proof. reflexivity. Qed.

(* ================================================================= *)
(** * The covariance loop *)

Lemma noise_std_defined snr :
  0 < snr ->
  py_truediv (1 / 2) snr = Returned (1 / 2 / snr) /\
  np_sqrt (1 / 2 / snr) = Some (noise_std snr).
Proof.
  intros Hs. unfold py_truediv, np_sqrt, noise_std.
  destruct (Req_dec_T snr 0) as [E|_]; [lra|]. split; [reflexivity|].
  destruct (Rlt_dec (1 / 2 / snr) 0) as [L|_]; [|reflexivity].
  exfalso. assert (0 < 1 / 2 / snr) by (apply Rdiv_lt_0_compat; lra). lra.
Qed.

Lemma randn_nth g n j : (j < n)%nat -> nth j (fst (randn n g)) 0 = g j.
Proof.
  intros Hj. unfold randn; simpl.
  rewrite (nth_map_in _ _ _ _ O) by (rewrite length_seq; exact Hj).
  rewrite seq_nth by exact Hj. reflexivity.
Qed.

Lemma sample_loop_cons A snr N t times st :
  sample_loop A snr N (t :: times) st =
  st' <- sample_step A snr N st ;; sample_loop A snr N times st'.
Proof.
  unfold sample_loop. simpl.
  destruct (sample_step A snr N st) as [st'| e]; simpl; [reflexivity|].
  induction times as [|t' ts IH]; simpl; [reflexivity | exact IH].
Qed.

Lemma gram_entry_advance A sigma g N t i k :
  gram_entry A sigma (advance N g) N t i k = gram_entry A sigma g N (S t) i k.
Proof.
  unfold gram_entry, advance. apply Csum_ext. intros j _.
  replace (N + (t * N + j))%nat with (S t * N + j)%nat by lia. reflexivity.
Qed.

Lemma np_linspace_length a b n : length (np_linspace a b n) = n.
Proof. unfold np_linspace. rewrite length_map, length_seq. reflexivity. Qed.

Lemma INR_CTE_SAMPLES : INR CTE_SAMPLES = 50.
Proof. unfold CTE_SAMPLES. replace 50%nat with (Z.to_nat 50) by reflexivity.
  rewrite INR_IZR_INZ. rewrite Z2Nat.id by lia. reflexivity. Qed.

Section CovarianceOfColumn.

(** A steering vector of [N] entries and a positive signal-to-noise ratio. *)
Variables (A : mat) (snr : R) (N : nat).
Hypothesis HA : column A N.
Hypothesis Hs : 0 < snr.

Lemma sample_step_column (cov : mat) (g : rng) :
  nrows cov = N -> ncols cov = N ->
  exists cov',
    sample_step A snr N (Finite cov, g) = Returned (Finite cov', advance N g) /\
    nrows cov' = N /\ ncols cov' = N /\
    forall i k, (i < N)%nat -> (k < N)%nat ->
      at_ cov' i k = Cadd (at_ cov i k) (gram_entry A (noise_std snr) g N O i k).
Proof.
  intros Hcr Hcc. pose proof (noise_std_defined snr Hs) as [Hq Hsigma].
  destruct HA as [Hr Hc]. clear HA.
  destruct A as [r c a]; destruct cov as [cr cc m]; simpl in *; subst.
  unfold sample_step.
  rewrite Hq. cbn [bind]. rewrite Hsigma.
  unfold iq_sample, scaled_row, nd_add, np_add; simpl.
  rewrite bc_dim_1_r, !length_map, length_seq, bc_dim_1_l. simpl.
  unfold np_matmul; simpl. rewrite Nat.eqb_refl. simpl.
  unfold nd_iadd, nd_add, np_add; simpl. rewrite bc_dim_refl. simpl.
  rewrite Nat.eqb_refl. simpl.
  eexists. split; [reflexivity|]. simpl.
  split; [reflexivity|]. split; [reflexivity|].
  intros i k Hi Hk. rewrite !(bc_idx_lt N i Hi), !(bc_idx_lt N k Hk).
  f_equal. unfold gram_entry; simpl.
  apply Csum_ext. intros j Hj.
  rewrite (bc_idx_lt N j Hj), bc_idx_1.
  rewrite (nth_map_in _ _ _ _ 0) by (rewrite length_map, length_seq; exact Hj).
  rewrite (nth_map_in _ _ _ _ O) by (rewrite length_seq; exact Hj).
  rewrite seq_nth by exact Hj. reflexivity.
Qed.

(** The loop adds, for each sample time, the product of the broadcast sample
    with its conjugate transpose, and draws [N] numbers per sample time. *)
Lemma sample_loop_column (times : list R) :
  forall (cov : mat) (g : rng), nrows cov = N -> ncols cov = N ->
  exists cov' g',
    sample_loop A snr N times (Finite cov, g) = Returned (Finite cov', g') /\
    nrows cov' = N /\ ncols cov' = N /\
    (forall n, g' n = g (length times * N + n)%nat) /\
    forall i k, (i < N)%nat -> (k < N)%nat ->
      at_ cov' i k =
      Cadd (at_ cov i k)
           (Csum (fun t => gram_entry A (noise_std snr) g N t i k) (length times)).
Proof.
  induction times as [|t times IH]; intros cov g Hr Hc.
  - exists cov, g. unfold sample_loop; simpl.
    repeat split; try assumption. intros i k _ _. cring.
  - destruct (sample_step_column cov g Hr Hc)
      as (cov1 & Hstep & Hr1 & Hc1 & Hent1).
    destruct (IH cov1 (advance N g) Hr1 Hc1) as (cov' & g' & Hloop & Hr' & Hc' & Hg' & Hent').
    exists cov', g'. rewrite sample_loop_cons, Hstep. cbn [bind].
    split; [exact Hloop|]. split; [exact Hr'|]. split; [exact Hc'|]. split.
    + intros n. rewrite Hg'. unfold advance. f_equal.
      change (length (t :: times)) with (S (length times)). lia.
    + intros i k Hi Hk. rewrite (Hent' i k Hi Hk), (Hent1 i k Hi Hk).
      change (length (t :: times)) with (S (length times)).
      rewrite (Csum_shift (fun t0 => gram_entry A (noise_std snr) g N t0 i k)).
      rewrite <- Cadd_assoc. f_equal. f_equal.
      apply Csum_ext. intros t0 _. apply gram_entry_advance.
Qed.

(** What [sample_cov] returns on a column: the shape, the state of the
    generator, and every entry. *)
Lemma sample_cov_column (g : rng) :
  exists M g',
    sample_cov A snr g = Returned (Finite M, g') /\
    nrows M = N /\ ncols M = N /\
    (forall n, g' n = g (CTE_SAMPLES * N + n)%nat) /\
    forall i k, (i < N)%nat -> (k < N)%nat ->
      at_ M i k =
      Cdiv (Csum (fun t => gram_entry A (noise_std snr) g N t i k) CTE_SAMPLES)
           (RtoC 50).
Proof.
  unfold sample_cov.
  assert (HN : (nrows A * ncols A)%nat = N) by (destruct HA as [-> ->]; lia).
  rewrite HN.
  destruct (sample_loop_column (np_linspace 0 CTE_TIME CTE_SAMPLES)
              (np_zeros N N) g eq_refl eq_refl)
    as (cov' & g' & Hloop & Hr' & Hc' & Hg' & Hent').
  rewrite np_linspace_length in Hg', Hent'.
  exists (np_idiv cov' (INR CTE_SAMPLES)), g'.
  rewrite Hloop. cbn [bind].
  split; [reflexivity|]. split; [exact Hr'|]. split; [exact Hc'|].
  split; [exact Hg'|].
  intros i k Hi Hk. unfold np_idiv. cbn [at_].
  rewrite (Hent' i k Hi Hk). unfold np_zeros. cbn [at_].
  rewrite INR_CTE_SAMPLES. rewrite Cadd_0_l. reflexivity.
Qed.

End CovarianceOfColumn.

(* ================================================================= *)
(** * Quadratic forms *)

Lemma quadf_ext n m m' v :
  (forall i k, (i < n)%nat -> (k < n)%nat -> m i k = m' i k) ->
  quadf n m v = quadf n m' v.
Proof.
  intros H. unfold quadf. apply Csum_ext. intros i Hi.
  apply Csum_ext. intros k Hk. rewrite (H i k Hi Hk). reflexivity.
Qed.

Lemma quadf_zero n v : quadf n (fun _ _ => C0) v = C0.
Proof.
  unfold quadf.
  rewrite (Csum_ext _ (fun _ => C0)); [apply Csum_zero|].
  intros i _. rewrite (Csum_ext _ (fun _ => C0)); [apply Csum_zero|].
  intros k _. cring.
Qed.

Lemma quadf_add n m1 m2 v :
  quadf n (fun i k => Cadd (m1 i k) (m2 i k)) v = Cadd (quadf n m1 v) (quadf n m2 v).
Proof.
  unfold quadf. rewrite <- Csum_add. apply Csum_ext. intros i _.
  rewrite <- Csum_add. apply Csum_ext. intros k _. cring.
Qed.

Lemma quadf_sum n (F : nat -> nat -> nat -> C) T v :
  quadf n (fun i k => Csum (fun t => F t i k) T) v = Csum (fun t => quadf n (F t) v) T.
Proof.
  induction T as [|T IH]; simpl.
  - apply quadf_zero.
  - rewrite <- IH. apply (quadf_add n (fun i k => Csum (fun t => F t i k) T) (F T)).
Qed.

Lemma quadf_div n m (s : R) v :
  quadf n (fun i k => Cdiv (m i k) (RtoC s)) v = Cdiv (quadf n m v) (RtoC s).
Proof.
  unfold quadf. rewrite <- Csum_div_RtoC. apply Csum_ext. intros i _.
  rewrite <- Csum_div_RtoC. apply Csum_ext. intros k _.
  unfold Cdiv, Cmul, Cconj, RtoC, Cnorm2; simpl. apply C_eq; simpl; unfold Rdiv; ring.
Qed.

(** The quadratic form of [X X*] is a sum of squared moduli. *)
Lemma quadf_gram n J (X : nat -> nat -> C) v :
  quadf n (fun i k => Csum (fun j => Cmul (X i j) (Cconj (X k j))) J) v =
  Csum (fun j => RtoC (Cnorm2 (Csum (fun i => Cmul (Cconj (v i)) (X i j)) n))) J.
Proof.
  unfold quadf.
  transitivity
    (Csum (fun i => Csum (fun j => Csum (fun k =>
       Cmul (Cmul (Cconj (v i)) (X i j)) (Cconj (Cmul (Cconj (v k)) (X k j)))) n) J) n).
  - apply Csum_ext. intros i _.
    rewrite <- (Csum_swap (fun k j =>
       Cmul (Cmul (Cconj (v i)) (X i j)) (Cconj (Cmul (Cconj (v k)) (X k j))))).
    apply Csum_ext. intros k _.
    rewrite <- Csum_mul_l, <- Csum_mul_r.
    apply Csum_ext. intros j _. cring.
  - rewrite (Csum_swap (fun i j => Csum (fun k =>
       Cmul (Cmul (Cconj (v i)) (X i j)) (Cconj (Cmul (Cconj (v k)) (X k j)))) n)).
    apply Csum_ext. intros j _.
    rewrite <- Cmul_conj_self, Csum_conj, <- Csum_mul_r.
    apply Csum_ext. intros i _.
    rewrite Csum_mul_l. reflexivity.
Qed.

Lemma Csum_real_nonneg (f : nat -> R) n :
  (forall i, 0 <= f i) ->
  Im (Csum (fun i => RtoC (f i)) n) = 0 /\ 0 <= Re (Csum (fun i => RtoC (f i)) n).
Proof.
  intros H. induction n as [|n [IHi IHr]]; simpl.
  - split; lra.
  - rewrite IHi. specialize (H n). split; lra.
Qed.

Lemma real_nonneg_add z w :
  Im z = 0 /\ 0 <= Re z -> Im w = 0 /\ 0 <= Re w ->
  Im (Cadd z w) = 0 /\ 0 <= Re (Cadd z w).
Proof. intros [? ?] [? ?]. simpl. split; lra. Qed.

Lemma Csum_nonneg (f : nat -> C) n :
  (forall i, Im (f i) = 0 /\ 0 <= Re (f i)) ->
  Im (Csum f n) = 0 /\ 0 <= Re (Csum f n).
Proof.
  intros H. induction n as [|n IH]; simpl Csum.
  - simpl. split; lra.
  - apply real_nonneg_add; [exact IH | apply H].
Qed.

Lemma gram_entry_quadf A sigma g N t v :
  Im (quadf N (gram_entry A sigma g N t) v) = 0 /\
  0 <= Re (quadf N (gram_entry A sigma g N t) v).
Proof.
  unfold gram_entry.
  rewrite (quadf_gram N N (fun i j => Cadd (at_ A i O) (RtoC (sigma * g (t * N + j)%nat)))).
  apply Csum_real_nonneg. intros j. apply Cnorm2_nonneg.
Qed.

Lemma gram_entry_conj A sigma g N t i k :
  Cconj (gram_entry A sigma g N t k i) = gram_entry A sigma g N t i k.
Proof.
  unfold gram_entry. rewrite Csum_conj. apply Csum_ext. intros j _. cring.
Qed.

(* ================================================================= *)
(** * The MUSIC spectrum *)

Lemma mapM_returned {A B : Type} (f : A -> outcome B) (h : A -> B) (l : list A) :
  (forall a, In a l -> f a = Returned (h a)) -> mapM f l = Returned (map h l).
Proof.
  induction l as [|a l IH]; intros H; simpl; [reflexivity|].
  rewrite (H a) by (left; reflexivity). simpl.
  rewrite IH by (intros; apply H; right; assumption). reflexivity.
Qed.

Lemma quadratic_chain (a E : mat) :
  nrows a = nrows E -> ncols a = 1%nat ->
  (m1 <- np_matmul (np_T (np_conjugate a)) E ;;
   m2 <- np_matmul m1 (np_T (np_conjugate E)) ;;
   m3 <- np_matmul m2 a ;;
   d <- np_item m3 ;;
   Returned (np_reciprocal d)) = Returned (np_reciprocal (music_denominator E a)).
Proof.
  intros Hr Hc. destruct a as [ar ac af], E as [er ec ef]. simpl in *. subst.
  unfold np_matmul; simpl. rewrite Nat.eqb_refl; simpl.
  rewrite Nat.eqb_refl; simpl. rewrite Nat.eqb_refl; simpl.
  reflexivity.
Qed.

Lemma non_noise_cov_eigvecs_nrows eig A : nrows (non_noise_cov_eigvecs eig A) = nrows A.
Proof. reflexivity. Qed.

Lemma non_noise_cov_eigvecs_ncols eig A :
  ncols (non_noise_cov_eigvecs eig A) = (nrows A - NUM_SOURCES)%nat.
Proof.
  unfold non_noise_cov_eigvecs, slice_cols, NUM_SOURCES; simpl.
  destruct (nrows A) as [|n]; simpl; [reflexivity|]. 
  rewrite Nat.min_id. destruct n; simpl; lia.
Qed.

Lemma non_noise_cov_eigvecs_entry eig A i j :
  (1 <= nrows A)%nat ->
  at_ (non_noise_cov_eigvecs eig A) i j = snd (eig A) i (NUM_SOURCES + j)%nat.
Proof.
  intros H. unfold non_noise_cov_eigvecs, slice_cols, NUM_SOURCES; simpl.
  destruct (nrows A) as [|n]; [lia|]. reflexivity.
Qed.

Lemma signal_power_returned eig A d angle :
  signal_power (non_noise_cov_eigvecs eig A) (nrows A) d angle
  = Returned (pseudo_power eig A d angle).
Proof.
  unfold signal_power, pseudo_power.
  apply quadratic_chain.
  - rewrite response_vec_nrows, Nat2Z.id. reflexivity.
  - reflexivity.
Qed.

Lemma music_square eig A d :
  nrows A = ncols A ->
  music eig (Finite A) d =
  Returned (np_linspace (- MAX_SEARCH_ANGLE) MAX_SEARCH_ANGLE NUM_ANGLES_TO_SEARCH,
            map (pseudo_power eig A d)
                (np_linspace (- MAX_SEARCH_ANGLE) MAX_SEARCH_ANGLE NUM_ANGLES_TO_SEARCH)).
Proof.
  intros Hsq. unfold music, eig_argument. cbn [shape0 shape1].
  rewrite <- Hsq, Nat.eqb_refl. cbn [negb bind].
  rewrite (mapM_returned _ (pseudo_power eig A d)).
  - reflexivity.
  - intros a _. apply signal_power_returned.
Qed.

Lemma np_linspace_nth a b n i :
  (i < n)%nat ->
  nth i (np_linspace a b n) 0 = INR i * ((b - a) / INR (n - 1)) + a.
Proof.
  intros Hi. unfold np_linspace.
  rewrite (nth_map_in _ _ _ _ O) by (rewrite length_seq; exact Hi).
  rewrite seq_nth by exact Hi. reflexivity.
Qed.

(** The denominator is the squared norm of [E* a]. *)
Lemma music_denominator_norm (E a : mat) :
  nrows a = nrows E ->
  music_denominator E a =
  Csum (fun c => RtoC (Cnorm2 (Csum (fun i => Cmul (Cconj (at_ a i O)) (at_ E i c)) (nrows E))))
       (ncols E).
Proof.
  intros Hr. unfold music_denominator. rewrite Hr.
  rewrite (Csum_ext _ (fun j => Csum (fun c =>
     Cmul (Csum (fun i => Cmul (Cconj (at_ a i O)) (at_ E i c)) (nrows E))
          (Cconj (Cmul (Cconj (at_ a j O)) (at_ E j c)))) (ncols E))).
  - rewrite (Csum_swap (fun j c =>
       Cmul (Csum (fun i => Cmul (Cconj (at_ a i O)) (at_ E i c)) (nrows E))
            (Cconj (Cmul (Cconj (at_ a j O)) (at_ E j c))))).
    apply Csum_ext. intros c _.
    rewrite <- Cmul_conj_self, Csum_conj, <- Csum_mul_l. reflexivity.
  - intros j _. rewrite <- Csum_mul_r. apply Csum_ext. intros c _. cring.
Qed.

(* ================================================================= *)
(** * The peak finder *)

Ltac decide_bool :=
  split; intros; try assumption; try reflexivity; try discriminate; contradiction.

Lemma Rltb_true a b : Rltb a b = true <-> a < b.
Proof. unfold Rltb. destruct (Rlt_dec a b); decide_bool. Qed.

Lemma Rltb_false a b : Rltb a b = false <-> ~ a < b.
Proof. unfold Rltb. destruct (Rlt_dec a b); decide_bool. Qed.

Lemma Reqb_true a b : Reqb a b = true <-> a = b.
Proof. unfold Reqb. destruct (Req_dec_T a b); decide_bool. Qed.

Lemma xeqb_eq a b : xeqb a b = true -> a = b.
Proof.
  destruct a, b; simpl; intros H; try discriminate; try reflexivity.
  apply Reqb_true in H. subst. reflexivity.
Qed.

Lemma xltb_irrefl a : xltb a a = false.
Proof. destruct a; simpl; try reflexivity. apply Rltb_false. lra. Qed.

Lemma xltb_asym a b : xltb a b = true -> xltb b a = false.
Proof.
  destruct a, b; simpl; intros H; try discriminate; try reflexivity.
  apply Rltb_true in H. apply Rltb_false. lra.
Qed.

Lemma xltb_not_eq a b : xltb a b = true -> xeqb a b = false.
Proof.
  intros H. destruct (xeqb a b) eqn:E; [|reflexivity].
  apply xeqb_eq in E. subst. rewrite xltb_irrefl in H. discriminate.
Qed.

Section PeakFinder.

(** The samples that [find_peaks] scans. *)
Variable x : list xreal.

Lemma look_ahead_spec xi i_max :
  forall fuel ia, (i_max - ia < fuel)%nat ->
    let r := look_ahead x xi i_max fuel ia in
    (ia <= r)%nat /\ ((ia <= i_max)%nat -> (r <= i_max)%nat) /\
    (forall j, (ia <= j < r)%nat -> xeqb (nth j x NaN) xi = true) /\
    ((r < i_max)%nat -> xeqb (nth r x NaN) xi = false).
Proof.
  induction fuel as [|fuel IH]; intros ia Hf; [lia|].
  simpl. destruct (ia <? i_max)%nat eqn:Hlt; simpl.
  - apply Nat.ltb_lt in Hlt.
    destruct (xeqb (nth ia x NaN) xi) eqn:He.
    + destruct (IH (S ia)) as (H1 & H2 & H3 & H4); [lia|].
      split; [lia|]. split; [intros _; apply H2; lia|]. split; [|exact H4].
      intros j Hj. destruct (Nat.eq_dec j ia) as [->|Hne]; [exact He|].
      apply H3. lia.
    + split; [lia|]. split; [lia|]. split; [intros j Hj; lia|]. intros _. exact He.
  - apply Nat.ltb_ge in Hlt.
    split; [lia|]. split; [lia|]. split; [intros j Hj; lia|]. intros Hc. lia.
Qed.

(** A flat top that starts at [l] ends just before the index [look_ahead] finds. *)
Lemma flat_top_look_ahead l r :
  flat_top x l r ->
  look_ahead x (nth l x NaN) (length x - 1) (length x) (l + 1) = (r + 1)%nat.
Proof.
  intros (Hl & Hlr & Hr & Hrise & Hflat & Hfall).
  destruct (look_ahead_spec (nth l x NaN) (length x - 1) (length x) (l + 1))
    as (H1 & H2 & H3 & H4); [lia|].
  set (ia := look_ahead x (nth l x NaN) (length x - 1) (length x) (l + 1)) in *.
  destruct (Nat.lt_trichotomy (r + 1) ia) as [Hlt|[Heq|Hgt]].
  - assert (Hc : xeqb (nth (r + 1) x NaN) (nth l x NaN) = true) by (apply H3; lia).
    rewrite (xltb_not_eq _ _ Hfall) in Hc. discriminate.
  - symmetry. exact Heq.
  - assert (Hia : xeqb (nth ia x NaN) (nth l x NaN) = true) by (apply Hflat; lia).
    rewrite H4 in Hia by lia. discriminate.
Qed.

Lemma local_maxima_loop_spec :
  forall fuel i, (length x - 1 - i <= fuel)%nat -> (1 <= i)%nat ->
  forall p, In p (local_maxima_loop x (length x - 1) fuel i) <->
            exists l r, (i <= l)%nat /\ flat_top x l r /\ p = ((l + r) / 2)%nat.
Proof.
  induction fuel as [|fuel IH]; intros i Hf Hi p.
  - simpl. split; [intros []|].
    intros (l & r & Hil & (Hl & Hlr & Hr & _) & _). lia.
  - simpl. destruct (i <? length x - 1)%nat eqn:Hlt.
    2:{ apply Nat.ltb_ge in Hlt. split; [intros []|].
        intros (l & r & Hil & (Hl & Hlr & Hr & _) & _). lia. }
    apply Nat.ltb_lt in Hlt.
    destruct (look_ahead_spec (nth i x NaN) (length x - 1) (length x) (i + 1))
      as (A1 & A2 & A3 & A4); [lia|].
    specialize (A2 ltac:(lia)).
    set (ia := look_ahead x (nth i x NaN) (length x - 1) (length x) (i + 1)) in *.
    assert (Hskip : forall l r, (i < l)%nat -> flat_top x l r ->
              xltb (nth ia x NaN) (nth i x NaN) = true -> (ia + 1 <= l)%nat).
    { intros l r Hil (Hl & Hlr & Hr & Hrise & Hflat & Hfall) Hdown.
      destruct (Nat.le_gt_cases (ia + 1) l) as [|Hc]; [assumption|exfalso].
      assert (Hprev : nth (l - 1) x NaN = nth i x NaN).
      { destruct (Nat.eq_dec (l - 1) i) as [->|Hne]; [reflexivity|].
        apply xeqb_eq, A3. lia. }
      destruct (Nat.eq_dec l ia) as [->|Hne].
      - rewrite Hprev in Hrise. apply xltb_asym in Hrise. congruence.
      - assert (Hcur : nth l x NaN = nth i x NaN) by (apply xeqb_eq, A3; lia).
        rewrite Hprev, Hcur, xltb_irrefl in Hrise. discriminate. }
    destruct (xltb (nth (i - 1) x NaN) (nth i x NaN)) eqn:Hrise_i.
    + destruct (xltb (nth ia x NaN) (nth i x NaN)) eqn:Hfall_i.
      * assert (Htop : flat_top x i (ia - 1)).
        { repeat split; try lia; try assumption.
          - intros j Hj. apply A3. lia.
          - replace (ia - 1 + 1)%nat with ia by lia. exact Hfall_i. }
        simpl. rewrite IH by lia. split.
        -- intros [<-|(l & r & Hil & Hflat & Hp)].
           ++ exists i, (ia - 1)%nat. split; [lia|]. split; [exact Htop|reflexivity].
           ++ exists l, r. split; [lia|]. split; assumption.
        -- intros (l & r & Hil & Hflat & Hp).
           destruct (Nat.eq_dec l i) as [->|Hne].
           ++ left. pose proof (flat_top_look_ahead i r Hflat) as E.
              fold ia in E. subst p. f_equal. f_equal. lia.
           ++ right. exists l, r. split; [|split; assumption].
              apply (Hskip l r); [lia|exact Hflat|reflexivity].
      * rewrite IH by lia. split.
        -- intros (l & r & Hil & Hflat & Hp). exists l, r. split; [lia|split; assumption].
        -- intros (l & r & Hil & Hflat & Hp).
           destruct (Nat.eq_dec l i) as [->|Hne].
           ++ exfalso. pose proof (flat_top_look_ahead i r Hflat) as E. fold ia in E.
              destruct Hflat as (_ & _ & _ & _ & _ & Hfall). rewrite <- E in Hfall.
              congruence.
           ++ exists l, r. split; [lia|split; assumption].
    + rewrite IH by lia. split.
      * intros (l & r & Hil & Hflat & Hp). exists l, r. split; [lia|split; assumption].
      * intros (l & r & Hil & Hflat & Hp).
        destruct (Nat.eq_dec l i) as [->|Hne].
        -- exfalso. destruct Hflat as (_ & _ & _ & Hrise & _). congruence.
        -- exists l, r. split; [lia|split; assumption].
Qed.

Lemma local_maxima_1d_spec p : In p (local_maxima_1d x) <-> flat_top_mid x p.
Proof.
  unfold local_maxima_1d, flat_top_mid.
  rewrite local_maxima_loop_spec by lia. split.
  - intros (l & r & _ & H & Hp). exists l, r. split; assumption.
  - intros (l & r & H & Hp). exists l, r.
    split; [destruct H as (H & _); exact H|]. split; assumption.
Qed.

Lemma flat_top_mid_bounds l r : flat_top x l r -> (l <= (l + r) / 2 <= r)%nat.
Proof.
  intros (Hl & Hlr & _). split.
  - apply Nat.div_le_lower_bound; lia.
  - apply Nat.Div0.div_le_upper_bound; lia.
Qed.

(** The peaks come out in ascending order. *)
Lemma local_maxima_loop_sorted :
  forall fuel i, (length x - 1 - i <= fuel)%nat -> (1 <= i)%nat ->
  StronglySorted lt (local_maxima_loop x (length x - 1) fuel i).
Proof.
  induction fuel as [|fuel IH]; intros i Hf Hi; simpl; [constructor|].
  destruct (i <? length x - 1)%nat eqn:Hlt; [|constructor].
  apply Nat.ltb_lt in Hlt.
  destruct (look_ahead_spec (nth i x NaN) (length x - 1) (length x) (i + 1))
    as (A1 & A2 & _); [lia|].
  specialize (A2 ltac:(lia)).
  set (ia := look_ahead x (nth i x NaN) (length x - 1) (length x) (i + 1)) in *.
  destruct (xltb (nth (i - 1) x NaN) (nth i x NaN)); [|apply IH; lia].
  destruct (xltb (nth ia x NaN) (nth i x NaN)); [|apply IH; lia].
  constructor; [apply IH; lia|].
  apply Forall_forall. intros p Hp.
  apply local_maxima_loop_spec in Hp; [|lia|lia].
  destruct Hp as (l & r & Hil & Hflat & ->).
  pose proof (flat_top_mid_bounds l r Hflat) as [Hlo _].
  assert ((i + (ia - 1)) / 2 <= ia - 1)%nat
    by (apply Nat.Div0.div_le_upper_bound; lia).
  change (fst (Nat.divmod (i + (ia - 1)) 1 0 1)) with ((i + (ia - 1)) / 2)%nat.
  lia.
Qed.

Lemma StronglySorted_lt_filter (f : nat -> bool) (l : list nat) :
  StronglySorted lt l -> StronglySorted lt (filter f l).
Proof.
  induction 1 as [|a l Hs IH Ha]; simpl; [constructor|].
  destruct (f a); [|exact IH].
  constructor; [exact IH|].
  apply Forall_forall. intros p Hp. apply filter_In in Hp as [Hp _].
  rewrite Forall_forall in Ha. apply Ha, Hp.
Qed.

Lemma find_peaks_sorted h : StronglySorted lt (find_peaks x h).
Proof.
  unfold find_peaks, local_maxima_1d.
  apply StronglySorted_lt_filter, local_maxima_loop_sorted; lia.
Qed.

Lemma find_peaks_spec h p :
  In p (find_peaks x h) <-> flat_top_mid x p /\ xleb (Fin h) (nth p x NaN) = true.
Proof.
  unfold find_peaks. rewrite filter_In, local_maxima_1d_spec. reflexivity.
Qed.

Lemma no_peak_nil (l : list nat) : (forall p, ~ In p l) -> l = [].
Proof.
  destruct l as [|a l]; [reflexivity|]. intros H. exfalso. apply (H a). left. reflexivity.
Qed.

(** A spectrum that never rises has no peak. *)
Lemma find_peaks_no_rise h :
  (forall i, (1 <= i)%nat -> xltb (nth (i - 1) x NaN) (nth i x NaN) = false) ->
  find_peaks x h = [].
Proof.
  intros H. apply no_peak_nil. intros p Hp.
  apply find_peaks_spec in Hp as [(l & r & (Hl & _ & _ & Hrise & _) & _) _].
  rewrite (H l Hl) in Hrise. discriminate.
Qed.

(** An inner sample that is higher than both neighbours is a flat top of its own. *)
Lemma strict_maximum_flat_top i :
  (1 <= i)%nat -> (i + 1 < length x)%nat ->
  xltb (nth (i - 1) x NaN) (nth i x NaN) = true ->
  xltb (nth (i + 1) x NaN) (nth i x NaN) = true ->
  flat_top_mid x i.
Proof.
  intros Hi Hlen Hl Hr. exists i, i. split.
  - repeat split; try lia; try assumption.
  - replace (i + i)%nat with (i * 2)%nat by lia. symmetry. apply Nat.div_mul. lia.
Qed.

End PeakFinder.

(* ================================================================= *)
(** * The generator *)

Lemma randn_agree n (g h : rng) :
  (forall k, (k < n)%nat -> g k = h k) -> fst (randn n g) = fst (randn n h).
Proof.
  intros H. unfold randn; simpl. apply map_ext_in. intros k Hk.
  apply in_seq in Hk. apply H. lia.
Qed.

(** One pass of the loop reads the generator through its next [N] draws only. *)
Lemma sample_step_agree A snr N cov (g h : rng) :
  (forall k, (k < N)%nat -> g k = h k) ->
  match sample_step A snr N (cov, g), sample_step A snr N (cov, h) with
  | Returned (c1, g1), Returned (c2, h1) =>
      c1 = c2 /\ g1 = advance N g /\ h1 = advance N h
  | Raised e1, Raised e2 => e1 = e2
  | _, _ => False
  end.
Proof.
  intros H. unfold sample_step.
  destruct (py_truediv (1 / 2) snr) as [q|e]; simpl; [|reflexivity].
  pose proof (randn_agree N g h H) as Hn. unfold randn in *. simpl in Hn.
  rewrite Hn.
  destruct (iq_sample A (np_sqrt q) (map h (seq 0 N))) as [iq|e]; simpl; [|reflexivity].
  destruct (nd_matmul iq (nd_T (nd_conjugate iq))) as [pr|e]; simpl; [|reflexivity].
  destruct (nd_iadd cov pr) as [c|e]; simpl; [|reflexivity].
  repeat split.
Qed.

Lemma sample_loop_agree A snr N times :
  forall cov (g h : rng),
  (forall k, (k < length times * N)%nat -> g k = h k) ->
  result_of (sample_loop A snr N times (cov, g)) =
  result_of (sample_loop A snr N times (cov, h)).
Proof.
  induction times as [|t times IH]; intros cov g h H; [reflexivity|].
  rewrite !sample_loop_cons.
  assert (HN : forall k, (k < N)%nat -> g k = h k).
  { intros k Hk. apply H. simpl. lia. }
  pose proof (sample_step_agree A snr N cov g h HN) as Hs.
  destruct (sample_step A snr N (cov, g)) as [[c1 g1]|e1];
    destruct (sample_step A snr N (cov, h)) as [[c2 h1]|e2];
    simpl in *; try contradiction; try (subst; reflexivity).
  destruct Hs as (-> & -> & ->). apply IH.
  intros k Hk. unfold advance. apply H. simpl. lia.
Qed.

(** [sample_cov] reads the generator through its next [CTE_SAMPLES * size]
    draws only. *)
Lemma sample_cov_agree A snr (g h : rng) :
  (forall k, (k < CTE_SAMPLES * (nrows A * ncols A))%nat -> g k = h k) ->
  result_of (sample_cov A snr g) = result_of (sample_cov A snr h).
Proof.
  intros H. unfold sample_cov.
  pose proof (sample_loop_agree A snr (nrows A * ncols A)
                (np_linspace 0 CTE_TIME CTE_SAMPLES)
                (Finite (np_zeros (nrows A * ncols A) (nrows A * ncols A))) g h) as Hl.
  rewrite np_linspace_length in Hl. specialize (Hl H).
  destruct (sample_loop A snr (nrows A * ncols A) (np_linspace 0 CTE_TIME CTE_SAMPLES)
              (Finite (np_zeros (nrows A * ncols A) (nrows A * ncols A)), g)) as [[c1 g1]|e1];
    destruct (sample_loop A snr (nrows A * ncols A) (np_linspace 0 CTE_TIME CTE_SAMPLES)
              (Finite (np_zeros (nrows A * ncols A) (nrows A * ncols A)), h)) as [[c2 h1]|e2];
    simpl in *; try discriminate; try reflexivity.
  - injection Hl as ->. reflexivity.
  - exact Hl.
Qed.

(* ================================================================= *)
(** * Inputs outside the documented ranges *)

Lemma sample_loop_first A snr N times st :
  times <> [] ->
  (exists e, forall st', sample_step A snr N st' = Raised e) ->
  sample_loop A snr N times st = sample_step A snr N st.
Proof.
  intros Hne [e H]. destruct times as [|t times]; [contradiction|].
  rewrite sample_loop_cons. rewrite H. reflexivity.
Qed.

Lemma sample_times_not_nil : np_linspace 0 CTE_TIME CTE_SAMPLES <> [].
Proof.
  intros E. apply (f_equal (@length R)) in E.
  rewrite np_linspace_length in E. discriminate.
Qed.

Lemma sample_step_snr_zero A N st : sample_step A 0 N st = Raised ZeroDivisionError.
Proof.
  destruct st as [cov g]. unfold sample_step, py_truediv.
  destruct (Req_dec_T 0 0) as [_|H]; [reflexivity|contradiction].
Qed.

(** Below zero the scale of the noise is a NaN. *)
Lemma noise_std_nan snr :
  snr < 0 ->
  py_truediv (1 / 2) snr = Returned (1 / 2 / snr) /\
  np_sqrt (1 / 2 / snr) = None.
Proof.
  intros Hs. unfold py_truediv, np_sqrt.
  destruct (Req_dec_T snr 0) as [E|_]; [lra|]. split; [reflexivity|].
  destruct (Rlt_dec (1 / 2 / snr) 0) as [_|H]; [reflexivity|].
  exfalso. apply H. unfold Rdiv.
  assert (/ snr < 0) by (apply Rinv_lt_0_compat; exact Hs). nra.
Qed.

Lemma bc_dim_same n : bc_dim n n = Some n.
Proof. unfold bc_dim. rewrite Nat.eqb_refl. reflexivity. Qed.

(** A column of [N] entries plus a row of [N] NaNs: [N] by [N] NaNs. *)
Lemma iq_sample_nan A N noise :
  column A N -> length noise = N -> iq_sample A None noise = Returned (AllNaN N N).
Proof.
  intros [Hr Hc] Hl. unfold iq_sample, scaled_row, nd_add. cbn [shape0 shape1].
  rewrite Hr, Hc, Hl, bc_dim_1_r, bc_dim_1_l. reflexivity.
Qed.

Lemma nd_matmul_nan N :
  (1 <= N)%nat -> nd_matmul (AllNaN N N) (AllNaN N N) = Returned (AllNaN N N).
Proof.
  intros HN. unfold nd_matmul. cbn [shape0 shape1]. rewrite Nat.eqb_refl.
  assert (E : (N =? 0)%nat = false) by (apply Nat.eqb_neq; lia).
  rewrite E. reflexivity.
Qed.

Lemma nd_iadd_nan cov N :
  shape0 cov = N -> shape1 cov = N -> nd_iadd cov (AllNaN N N) = Returned (AllNaN N N).
Proof.
  intros H0 H1. unfold nd_iadd.
  assert (Hadd : nd_add cov (AllNaN N N) = Returned (AllNaN N N)).
  { unfold nd_add. destruct cov as [m|r c]; cbn [shape0 shape1] in *;
      rewrite H0, H1, !bc_dim_same; reflexivity. }
  rewrite Hadd. cbn [bind shape0 shape1]. rewrite H0, H1, !Nat.eqb_refl. reflexivity.
Qed.

(** With a negative SNR one pass of the loop still draws its [N] numbers;
    what it leaves in the accumulator is NaN in every entry. *)
Lemma sample_step_snr_negative A snr N cov g :
  snr < 0 -> column A N -> (1 <= N)%nat -> shape0 cov = N -> shape1 cov = N ->
  sample_step A snr N (cov, g) = Returned (AllNaN N N, advance N g).
Proof.
  intros Hs HA HN H0 H1. destruct (noise_std_nan snr Hs) as [Hq Hsigma].
  unfold sample_step. rewrite Hq. cbn [bind]. rewrite Hsigma.
  unfold randn.
  rewrite (iq_sample_nan A N) by (rewrite ?length_map, ?length_seq; auto).
  cbn [bind nd_conjugate nd_T]. rewrite nd_matmul_nan by exact HN.
  cbn [bind]. rewrite nd_iadd_nan by assumption. reflexivity.
Qed.

Lemma sample_loop_snr_negative A snr N :
  snr < 0 -> column A N -> (1 <= N)%nat ->
  forall times cov g, times <> [] -> shape0 cov = N -> shape1 cov = N ->
  exists g',
    sample_loop A snr N times (cov, g) = Returned (AllNaN N N, g') /\
    forall k, g' k = g (length times * N + k)%nat.
Proof.
  intros Hs HA HN. induction times as [|t times IH]; intros cov g Hne H0 H1;
    [contradiction|].
  rewrite sample_loop_cons, (sample_step_snr_negative A snr N cov g) by assumption.
  cbn [bind]. destruct times as [|t' times].
  - exists (advance N g). split; [reflexivity|].
    intros k. unfold advance. f_equal. simpl. lia.
  - destruct (IH (AllNaN N N) (advance N g)) as (g' & Hloop & Hg');
      [discriminate | reflexivity | reflexivity |].
    exists g'. split; [exact Hloop|].
    intros k. rewrite Hg'. unfold advance. f_equal.
    change (length (t :: t' :: times)) with (S (length (t' :: times))). lia.
Qed.

Lemma sample_cov_snr_zero A g : sample_cov A 0 g = Raised ZeroDivisionError.
Proof.
  unfold sample_cov. rewrite sample_loop_first.
  - rewrite sample_step_snr_zero. reflexivity.
  - apply sample_times_not_nil.
  - exists ZeroDivisionError. intros st'. apply sample_step_snr_zero.
Qed.

(** With a negative SNR [sample_cov] runs to its end: it draws as many
    numbers as with a positive one and returns a matrix of NaNs. *)
Lemma sample_cov_snr_negative A snr N g :
  snr < 0 -> column A N -> (1 <= N)%nat ->
  exists g',
    sample_cov A snr g = Returned (AllNaN N N, g') /\
    forall k, g' k = g (CTE_SAMPLES * N + k)%nat.
Proof.
  intros Hs HA HN. unfold sample_cov.
  assert (HNN : (nrows A * ncols A)%nat = N) by (destruct HA as [-> ->]; lia).
  rewrite HNN.
  destruct (sample_loop_snr_negative A snr N Hs HA HN
              (np_linspace 0 CTE_TIME CTE_SAMPLES) (Finite (np_zeros N N)) g
              sample_times_not_nil eq_refl eq_refl) as (g' & Hloop & Hg').
  rewrite np_linspace_length in Hg'.
  exists g'. rewrite Hloop. cbn [bind nd_idiv]. split; [reflexivity | exact Hg'].
Qed.

(** [np.linalg.eig] refuses a matrix of NaNs. *)
Lemma music_all_nan eig N d :
  (1 <= N)%nat -> music eig (AllNaN N N) d = Raised LinAlgError.
Proof.
  intros HN. unfold music, eig_argument. cbn [shape0 shape1].
  rewrite Nat.eqb_refl. cbn [negb].
  assert (E : (N * N =? 0)%nat = false) by (apply Nat.eqb_neq; nia).
  rewrite E. reflexivity.
Qed.


Lemma np_reciprocal_zero : np_reciprocal C0 = CInfNaN.
Proof.
  unfold np_reciprocal. destruct (Req_dec_T (Cnorm2 C0) 0) as [_|H]; [reflexivity|].
  exfalso. apply H. unfold Cnorm2, C0; simpl. ring.
Qed.

(** With one antenna the subspace kept by [music] has no column, and the
    denominator of every pseudo-power is zero. *)
Lemma pseudo_power_single_antenna eig A d angle :
  nrows A = 1%nat -> pseudo_power eig A d angle = CInfNaN.
Proof.
  intros H1. unfold pseudo_power.
  rewrite music_denominator_norm
    by (rewrite response_vec_nrows, Nat2Z.id; reflexivity).
  rewrite non_noise_cov_eigvecs_ncols, H1. simpl. apply np_reciprocal_zero.
Qed.

Lemma response_vec_column n theta d : column (response_vec n theta d) (Z.to_nat n).
Proof. split; [apply response_vec_nrows | reflexivity]. Qed.

Lemma draw_snr_negative eig n theta snr d g :
  (1 <= n)%Z -> snr < 0 ->
  draw_pseudo_spectrum eig n theta snr d g = Raised LinAlgError.
Proof.
  intros Hn Hs. unfold draw_pseudo_spectrum.
  assert (HN : (1 <= Z.to_nat n)%nat) by lia.
  destruct (sample_cov_snr_negative (response_vec n theta (d / 100)) snr (Z.to_nat n) g
              Hs (response_vec_column n theta (d / 100)) HN) as (g' & Hcov & _).
  rewrite Hcov. cbn [bind]. rewrite music_all_nan by exact HN. reflexivity.
Qed.

Lemma draw_single_antenna eig theta snr d g :
  0 < snr ->
  exists g',
    draw_pseudo_spectrum eig 1 theta snr d g =
    Returned (mkPlot (np_linspace (- MAX_SEARCH_ANGLE) MAX_SEARCH_ANGLE NUM_ANGLES_TO_SEARCH)
                     (repeat PosInf NUM_ANGLES_TO_SEARCH) [], g').
Proof.
  intros Hs. unfold draw_pseudo_spectrum.
  destruct (sample_cov_column (response_vec 1 theta (d / 100)) snr 1
              (response_vec_column 1 theta (d / 100)) Hs g)
    as (M & g' & Hcov & Hr & Hc & _).
  exists g'. rewrite Hcov. cbn [bind].
  rewrite music_square by congruence. cbn [bind].
  set (grid := np_linspace (- MAX_SEARCH_ANGLE) MAX_SEARCH_ANGLE NUM_ANGLES_TO_SEARCH).
  assert (Hpow : map xreal_part (map (pseudo_power eig M (d / 100)) grid)
                 = repeat PosInf NUM_ANGLES_TO_SEARCH).
  { rewrite map_map.
    rewrite (map_ext _ (fun _ => PosInf))
      by (intros a; rewrite pseudo_power_single_antenna by exact Hr; reflexivity).
    rewrite map_const. unfold grid. rewrite np_linspace_length. reflexivity. }
  rewrite Hpow, map_repeat.
  assert (Hpk : peak_angles grid (repeat PosInf NUM_ANGLES_TO_SEARCH) = []).
  { unfold peak_angles. rewrite find_peaks_no_rise; [reflexivity|].
    intros i _.
    destruct (nth_in_or_default (i - 1) (repeat PosInf NUM_ANGLES_TO_SEARCH) NaN) as [Hin | ->];
      [apply repeat_spec in Hin; rewrite Hin|]; reflexivity. }
  rewrite Hpk. reflexivity.
Qed.

(* ================================================================= *)
(** * Evaluations *)

Lemma steering_entry_broadside a : steering_entry 0 a = C1.
Proof.
  rewrite steering_entry_phase. unfold phase, deg2rad.
  replace (0 * (PI / 180)) with 0 by ring. rewrite sin_0.
  replace (2 * PI * a * 0 / CTE_WAVELENGTH) with 0
    by (unfold Rdiv; ring).
  rewrite cos_0, sin_0. reflexivity.
Qed.

Lemma steering_entry_reference theta d : steering_entry theta (INR 0 * d) = C1.
Proof.
  rewrite steering_entry_phase. unfold phase. simpl INR.
  replace (2 * PI * (0 * d) * sin (deg2rad theta) / CTE_WAVELENGTH) with 0
    by (unfold Rdiv; ring).
  rewrite cos_0, sin_0. reflexivity.
Qed.

Lemma noise_std_half : noise_std (1 / 2) = 1.
Proof.
  unfold noise_std. replace (1 / 2 / (1 / 2)) with 1 by field. apply sqrt_1.
Qed.

Lemma Csum_const c n : Csum (fun _ => c) n = Cmul (RtoC (INR n)) c.
Proof.
  induction n as [|n IH]; [simpl; cring|].
  change (Csum (fun _ => c) (S n)) with (Cadd (Csum (fun _ => c) n) c).
  rewrite IH, S_INR. cring.
Qed.

Lemma Csum_const_50 c : Cdiv (Csum (fun _ => c) CTE_SAMPLES) (RtoC 50) = c.
Proof.
  rewrite Csum_const, INR_CTE_SAMPLES, Cdiv_RtoC by lra.
  apply C_eq; simpl; field.
Qed.

Lemma alternating_even (t : nat) : alternating (t * 2 + 0)%nat = 1.
Proof.
  unfold alternating. rewrite Nat.add_0_r, Nat.even_mul. simpl.
  rewrite orb_true_r. reflexivity.
Qed.

Lemma alternating_odd (t : nat) : alternating (t * 2 + 1)%nat = -1.
Proof.
  unfold alternating. rewrite Nat.even_add, Nat.even_mul. simpl.
  rewrite orb_true_r. reflexivity.
Qed.

Lemma broadside_pair_entry i : (i < 2)%nat -> at_ (response_vec 2 0 1) i O = C1.
Proof.
  intros Hi. rewrite response_vec_entry by exact Hi. apply steering_entry_broadside.
Qed.

(** The code at the two-antenna input: each entry of the accumulator gets
    [(1 + 1)^2 + (1 - 1)^2] at every sample time. *)
Lemma gram_entry_alternating t i k :
  (i < 2)%nat -> (k < 2)%nat ->
  gram_entry (response_vec 2 0 1) 1 alternating 2 t i k = mkC 4 0.
Proof.
  intros Hi Hk. unfold gram_entry.
  rewrite (broadside_pair_entry i Hi), (broadside_pair_entry k Hk).
  cbn [Csum]. rewrite alternating_even, alternating_odd.
  apply C_eq; simpl; ring.
Qed.

(** The same for any draws: the entry does not depend on [i] and [k]. *)
Lemma gram_entry_broadside_pair (g : rng) t i k :
  (i < 2)%nat -> (k < 2)%nat ->
  gram_entry (response_vec 2 0 1) 1 g 2 t i k =
  RtoC ((1 + g (t * 2)%nat) * (1 + g (t * 2)%nat)
        + (1 + g (t * 2 + 1)%nat) * (1 + g (t * 2 + 1)%nat)).
Proof.
  intros Hi Hk. unfold gram_entry.
  rewrite (broadside_pair_entry i Hi), (broadside_pair_entry k Hk).
  cbn [Csum]. rewrite Nat.add_0_r.
  apply C_eq; simpl; ring.
Qed.

Lemma observation_alternating_0 t :
  observation (response_vec 2 0 1) 1 alternating 2 t 0 = mkC 2 0.
Proof.
  unfold observation. rewrite (broadside_pair_entry 0) by lia.
  rewrite alternating_even. apply C_eq; simpl; ring.
Qed.

Lemma observation_alternating_1 t :
  observation (response_vec 2 0 1) 1 alternating 2 t 1 = mkC 0 0.
Proof.
  unfold observation. rewrite (broadside_pair_entry 1) by lia.
  rewrite alternating_odd. apply C_eq; simpl; ring.
Qed.

Lemma single_entry theta d : at_ (response_vec 1 theta d) O O = C1.
Proof.
  rewrite response_vec_entry by (simpl; lia). apply steering_entry_reference.
Qed.

Lemma gram_entry_single A sigma g t :
  gram_entry A sigma g 1 t 0 0 =
  Cmul (Cadd (at_ A O O) (RtoC (sigma * g t)))
       (Cconj (Cadd (at_ A O O) (RtoC (sigma * g t)))).
Proof.
  unfold gram_entry. cbn [Csum]. rewrite Nat.mul_1_r, Nat.add_0_r. apply Cadd_0_l.
Qed.

(* ================================================================= *)
(** * A spectrum with a low peak *)

Lemma ln_10_pos : 0 < ln 10.
Proof. rewrite <- ln_1. apply ln_increasing; lra. Qed.

Lemma twenty_log10_low p : 0 < p -> p <= 11 / 10 -> 20 * log10 p < 1.
Proof.
  intros Hp Hle. pose proof ln_10_pos as H10.
  assert (Hln : ln p <= ln (11 / 10)).
  { destruct Hle as [Hlt | ->]; [left; apply ln_increasing; assumption | right; reflexivity]. }
  assert (H20 : 20 * ln (11 / 10) < ln 10).
  { replace 20 with (INR 20) by (simpl; lra).
    rewrite <- ln_pow by lra. apply ln_increasing.
    - apply pow_lt; lra.
    - simpl; lra. }
  unfold log10. apply (Rmult_lt_reg_r (ln 10)); [exact H10|].
  replace (20 * (ln p / ln 10) * ln 10) with (20 * ln p) by (field; lra).
  lra.
Qed.

Lemma decibels_low p :
  0 < p -> p <= 11 / 10 -> xltb (Fin 1) (decibels (Fin p)) = false.
Proof.
  intros Hp Hle. unfold decibels, np_log10.
  destruct (Rlt_dec 0 p) as [_|H]; [|contradiction].
  simpl. apply Rltb_false. pose proof (twenty_log10_low p Hp Hle). lra.
Qed.

Lemma low_peak_length : length low_peak = 360%nat.
Proof. unfold low_peak. cbn [length]. rewrite repeat_length. reflexivity. Qed.

Lemma low_peak_values v : In v low_peak -> v = Fin (1 / 2) \/ v = Fin (11 / 10).
Proof.
  unfold low_peak. intros [<-|[<-|H]]; [left|right|left]; try reflexivity.
  apply repeat_spec in H. exact H.
Qed.

Lemma low_peak_tail n :
  nth (S (S n)) low_peak NaN = Fin (1 / 2) \/ nth (S (S n)) low_peak NaN = NaN.
Proof.
  unfold low_peak. cbn [nth].
  destruct (nth_in_or_default n (repeat (Fin (1 / 2)) 358) NaN) as [H|H].
  - left. apply repeat_spec in H. exact H.
  - right. exact H.
Qed.

Lemma singleton_of_sorted (l : list nat) (a : nat) :
  StronglySorted lt l -> (forall p, In p l <-> p = a) -> l = [a].
Proof.
  intros Hs H. destruct l as [|b l].
  - exfalso. apply (proj2 (H a) eq_refl).
  - assert (b = a) by (apply H; left; reflexivity). subst b.
    destruct l as [|c l]; [reflexivity|exfalso].
    assert (c = a) by (apply H; right; left; reflexivity). subst c.
    inversion Hs as [|? ? _ Hall]. inversion Hall. lia.
Qed.

Lemma find_peaks_low_peak : find_peaks low_peak 1 = [1%nat].
Proof.
  apply singleton_of_sorted; [apply find_peaks_sorted|].
  intros p. rewrite find_peaks_spec. split.
  - intros [(l & r & (Hl & Hlr & Hr & Hrise & Hflat & Hfall) & ->) _].
    destruct l as [|[|l]]; [lia| |].
    + destruct r as [|[|r]]; [lia|reflexivity|exfalso].
      specialize (Hflat 2%nat ltac:(lia)). unfold low_peak in Hflat. simpl in Hflat.
      apply Reqb_true in Hflat. lra.
    + exfalso. replace (S (S l) - 1)%nat with (S l) in Hrise by lia.
      destruct (low_peak_tail l) as [E|E]; rewrite E in Hrise.
      * destruct l as [|l].
        -- unfold low_peak in Hrise. simpl in Hrise. apply Rltb_true in Hrise. lra.
        -- destruct (low_peak_tail l) as [E'|E']; rewrite E' in Hrise; simpl in Hrise;
             [apply Rltb_true in Hrise; lra | discriminate].
      * destruct (nth (S l) low_peak NaN); simpl in Hrise; discriminate.
  - intros ->. split.
    + apply strict_maximum_flat_top.
      * lia.
      * rewrite low_peak_length. lia.
      * unfold low_peak. simpl. apply Rltb_true. lra.
      * unfold low_peak. simpl. apply Rltb_true. lra.
    + unfold low_peak, xleb. simpl.
      replace (Rltb 1 (11 / 10)) with true by (symmetry; apply Rltb_true; lra).
      reflexivity.
Qed.

Lemma spec_peak_low_peak i : spec_peak (map decibels low_peak) 1 i = false.
Proof.
  unfold spec_peak.
  assert (H : xltb (Fin 1) (nth i (map decibels low_peak) NaN) = false).
  { destruct (nth_in_or_default i (map decibels low_peak) NaN) as [Hin | ->];
      [|reflexivity].
    apply in_map_iff in Hin as (v & <- & Hv).
    destruct (low_peak_values v Hv) as [-> | ->]; apply decibels_low; lra. }
  rewrite H. apply andb_false_r.
Qed.

Lemma filter_none {A : Type} (f : A -> bool) (l : list A) :
  (forall a, f a = false) -> filter f l = [].
Proof.
  intros H. induction l as [|a l IH]; simpl; [reflexivity|]. rewrite H. exact IH.
Qed.

(* ================================================================= *)
(** * The search grid *)

Lemma search_grid_length : length search_grid = NUM_ANGLES_TO_SEARCH.
Proof. apply np_linspace_length. Qed.

Lemma search_grid_increasing p q :
  (p < q)%nat -> (q < NUM_ANGLES_TO_SEARCH)%nat ->
  nth p search_grid 0 < nth q search_grid 0.
Proof.
  intros Hpq Hq. unfold search_grid.
  rewrite !np_linspace_nth by lia.
  unfold MAX_SEARCH_ANGLE, NUM_ANGLES_TO_SEARCH.
  replace (INR (360 - 1)) with 359 by (simpl; lra).
  apply lt_INR in Hpq. lra.
Qed.

Lemma search_grid_sorted (l : list nat) :
  StronglySorted lt l -> Forall (fun p => (p < NUM_ANGLES_TO_SEARCH)%nat) l ->
  StronglySorted Rlt (map (fun p => nth p search_grid 0) l).
Proof.
  induction 1 as [|a l Hs IH Ha]; intros Hb; simpl; [constructor|].
  inversion Hb as [|? ? Hba Hbl]; subst.
  constructor; [apply IH; exact Hbl|].
  apply Forall_forall. intros x Hx. apply in_map_iff in Hx as (q & <- & Hq).
  rewrite Forall_forall in Ha, Hbl.
  apply search_grid_increasing; [apply Ha, Hq | apply Hbl, Hq].
Qed.

Lemma find_peaks_inner x h p :
  In p (find_peaks x h) -> (1 <= p)%nat /\ (p + 1 < length x)%nat.
Proof.
  intros Hp. apply find_peaks_spec in Hp as [(l & r & Hflat & ->) _].
  pose proof (flat_top_mid_bounds x l r Hflat) as [Hlo Hhi].
  destruct Hflat as (Hl & Hlr & Hr & _). lia.
Qed.

(** What [draw_pseudo_spectrum] plots and what it marks. *)
Lemma draw_pseudo_spectrum_plot eig n theta snr d g :
  match draw_pseudo_spectrum eig n theta snr d g with
  | Returned (pl, _) =>
      exists linear,
        plot_db pl = map decibels linear /\
        estimated_angles pl = peak_angles (plot_angles pl) linear
  | _ => True
  end.
Proof.
  unfold draw_pseudo_spectrum.
  destruct (sample_cov (response_vec n theta (d / 100)) snr g) as [[M g']|];
    cbn [bind]; try exact I.
  destruct (music eig M (d / 100)) as [[angles pw]|]; cbn [bind]; try exact I.
  exists (map xreal_part pw). split; reflexivity.
Qed.

Lemma low_peak_positive v : In v low_peak -> exists p, v = Fin p /\ 0 < p.
Proof.
  intros Hv. destruct (low_peak_values v Hv) as [-> | ->];
    eexists; (split; [reflexivity|lra]).
Qed.

(* ================================================================= *)
(** * The steering vector: claims C6, C7 and C10 *)

(** C6.  For at least two antennas, an incident angle between -90 and 90
    degrees, both ends included, and a positive spacing, [response_vec]
    returns a column of [num_antennas] entries whose entry [k] is
    [exp(i * 2 pi * k * spacing * sin(radians(angle)) / wavelength)], the
    wavelength being the speed of light divided by the tone frequency.  The
    function is total: nothing fails at 90 or -90 degrees. *)
Theorem response_vec_formula (num_antennas : Z) (incident_angle spacing : R) (k : nat) :
  (2 <= num_antennas)%Z -> -90 <= incident_angle <= 90 -> 0 < spacing ->
  (k < Z.to_nat num_antennas)%nat ->
  let wavelength := speed_of_light / CTE_FREQUENCY in
  let phase_k :=
    2 * PI * (INR k * spacing) * sin (incident_angle * (PI / 180)) / wavelength in
  nrows (response_vec num_antennas incident_angle spacing) = Z.to_nat num_antennas /\
  ncols (response_vec num_antennas incident_angle spacing) = 1%nat /\
  at_ (response_vec num_antennas incident_angle spacing) k 0
    = Cexp (Cmul Ci (RtoC phase_k)) /\
  Cexp (Cmul Ci (RtoC phase_k)) = mkC (cos phase_k) (sin phase_k).
Proof.
  intros _ _ _ Hk wavelength phase_k.
  split; [apply response_vec_nrows|]. split; [reflexivity|].
  rewrite Cexp_imaginary. split; [|reflexivity].
  rewrite response_vec_entry by exact Hk.
  apply steering_entry_phase.
Qed.

(** The formula at the end-fire angle of 90 degrees, five antennas 6 cm apart. *)
Lemma response_vec_formula_witness :
  (2 <= 5)%Z /\ -90 <= 90 <= 90 /\ 0 < 6 / 100 /\ (4 < Z.to_nat 5)%nat /\
  at_ (response_vec 5 90 (6 / 100)) 4 0
    = Cexp (Cmul Ci (RtoC (2 * PI * (INR 4 * (6 / 100)) * sin (90 * (PI / 180))
                           / (speed_of_light / CTE_FREQUENCY)))).
Proof.
  assert (H1 : (2 <= 5)%Z) by lia.
  assert (H2 : -90 <= 90 <= 90) by (split; lra).
  assert (H3 : 0 < 6 / 100) by lra.
  assert (H4 : (4 < Z.to_nat 5)%nat) by (simpl; lia).
  split; [exact H1|]. split; [exact H2|]. split; [exact H3|]. split; [exact H4|].
  exact (proj1 (proj2 (proj2 (response_vec_formula 5 90 (6 / 100) 4 H1 H2 H3 H4)))).
Defined.

(** C7.  For a valid geometry and an angle between -90 and 90 degrees, every
    entry of the steering vector has magnitude 1. *)
Theorem response_vec_unit_magnitude (num_antennas : Z) (incident_angle spacing : R)
    (k : nat) :
  (2 <= num_antennas)%Z -> -90 <= incident_angle <= 90 -> 0 < spacing ->
  (k < Z.to_nat num_antennas)%nat ->
  Cmod (at_ (response_vec num_antennas incident_angle spacing) k 0) = 1.
Proof.
  intros _ _ _ Hk. rewrite response_vec_entry by exact Hk.
  rewrite steering_entry_phase. apply Cmod_unit_phase.
Qed.

(** The magnitude for five antennas 6 cm apart and a wave from 60 degrees. *)
Lemma response_vec_unit_magnitude_witness :
  (2 <= 5)%Z /\ -90 <= 60 <= 90 /\ 0 < 6 / 100 /\ (3 < Z.to_nat 5)%nat /\
  Cmod (at_ (response_vec 5 60 (6 / 100)) 3 0) = 1.
Proof.
  assert (H1 : (2 <= 5)%Z) by lia.
  assert (H2 : -90 <= 60 <= 90) by (split; lra).
  assert (H3 : 0 < 6 / 100) by lra.
  assert (H4 : (3 < Z.to_nat 5)%nat) by (simpl; lia).
  split; [exact H1|]. split; [exact H2|]. split; [exact H3|]. split; [exact H4|].
  exact (response_vec_unit_magnitude 5 60 (6 / 100) 3 H1 H2 H3 H4).
Defined.



(* ================================================================= *)
(** * The covariance estimator: claims C1, C5 and C8 *)

(** C1.  The code at a two-antenna input: steering vector [(1, 1)], noise of
    standard deviation 1.  Whatever the draws are, the two draws of a sample
    time are each added to both antennas, so the four entries of the
    returned matrix are one and the same number.  With draws that alternate
    between 1 and -1 every entry is 4, whereas the average of the outer
    products of one observation vector per sample time, each antenna with a
    draw of its own, is 4 at [(0, 0)] and 0 at [(0, 1)] and [(1, 1)]. *)
Theorem sample_cov_shares_draws_between_antennas :
  (forall g : rng,
     exists M g',
       sample_cov (response_vec 2 0 1) (1 / 2) g = Returned (Finite M, g') /\
       nrows M = 2%nat /\ ncols M = 2%nat /\
       forall i k, (i < 2)%nat -> (k < 2)%nat ->
         at_ M i k =
         Cdiv (Csum (fun t => RtoC ((1 + g (t * 2)%nat) * (1 + g (t * 2)%nat)
                                    + (1 + g (t * 2 + 1)%nat) * (1 + g (t * 2 + 1)%nat)))
                    CTE_SAMPLES)
              (RtoC 50)) /\
  (exists M g',
     sample_cov (response_vec 2 0 1) (1 / 2) alternating = Returned (Finite M, g') /\
     at_ M 0 0 = mkC 4 0 /\ at_ M 0 1 = mkC 4 0 /\
     at_ M 1 0 = mkC 4 0 /\ at_ M 1 1 = mkC 4 0) /\
  at_ (estimate_covariance_spec (response_vec 2 0 1) (1 / 2) alternating) 0 0 = mkC 4 0 /\
  at_ (estimate_covariance_spec (response_vec 2 0 1) (1 / 2) alternating) 0 1 = mkC 0 0 /\
  at_ (estimate_covariance_spec (response_vec 2 0 1) (1 / 2) alternating) 1 1 = mkC 0 0.
Proof.
  split; [|split].
  - intros g.
    destruct (sample_cov_column (response_vec 2 0 1) (1 / 2) 2
                (response_vec_column 2 0 1) ltac:(lra) g)
      as (M & g' & Hcov & Hr & Hc & _ & Hent).
    exists M, g'. split; [exact Hcov|]. split; [exact Hr|]. split; [exact Hc|].
    intros i k Hi Hk. rewrite (Hent i k Hi Hk), noise_std_half. f_equal.
    apply Csum_ext. intros t _. apply gram_entry_broadside_pair; assumption.
  - destruct (sample_cov_column (response_vec 2 0 1) (1 / 2) 2
                (response_vec_column 2 0 1) ltac:(lra) alternating)
      as (M & g' & Hcov & Hr & Hc & _ & Hent).
    exists M, g'. split; [exact Hcov|].
    assert (Hcode : forall i k, (i < 2)%nat -> (k < 2)%nat -> at_ M i k = mkC 4 0).
    { intros i k Hi Hk. rewrite (Hent i k Hi Hk), noise_std_half.
      rewrite (Csum_ext _ (fun _ => mkC 4 0))
        by (intros t _; apply gram_entry_alternating; assumption).
      apply Csum_const_50. }
    repeat split; apply Hcode; lia.
  - unfold estimate_covariance_spec. cbn [at_]. rewrite noise_std_half, INR_CTE_SAMPLES.
    assert (Hn : nrows (response_vec 2 0 1) = 2%nat) by apply response_vec_nrows.
    rewrite Hn.
    split; [|split].
    + rewrite (Csum_ext _ (fun _ => mkC 4 0)); [apply Csum_const_50|].
      intros t _. rewrite observation_alternating_0. cring.
    + rewrite (Csum_ext _ (fun _ => mkC 0 0)); [apply Csum_const_50|].
      intros t _. rewrite observation_alternating_0, observation_alternating_1. cring.
    + rewrite (Csum_ext _ (fun _ => mkC 0 0)); [apply Csum_const_50|].
      intros t _. rewrite observation_alternating_1. cring.
Qed.

(** C8.  For a steering vector (a column of [N] entries) and a positive SNR,
    [sample_cov] returns an [N] by [N] matrix that equals its own conjugate
    transpose and is positive semi-definite, whatever the draws of the
    generator are. *)
Theorem sample_cov_hermitian_psd (A : mat) (N : nat) (snr : R) (g : rng) :
  column A N -> 0 < snr ->
  exists M g',
    sample_cov A snr g = Returned (Finite M, g') /\
    nrows M = N /\ ncols M = N /\ hermitian M /\ positive_semidefinite M.
Proof.
  intros HA Hs.
  destruct (sample_cov_column A snr N HA Hs g) as (M & g' & Hcov & Hr & Hc & _ & Hent).
  exists M, g'. split; [exact Hcov|]. split; [exact Hr|]. split; [exact Hc|]. split.
  - split; [congruence|]. rewrite Hr. intros i k Hi Hk.
    rewrite (Hent i k Hi Hk), (Hent k i Hk Hi).
    rewrite Cconj_div_RtoC, Csum_conj. f_equal.
    apply Csum_ext. intros t _. symmetry. apply gram_entry_conj.
  - intros v. rewrite Hr.
    rewrite (quadf_ext N (at_ M)
               (fun i k => Cdiv (Csum (fun t => gram_entry A (noise_std snr) g N t i k)
                                      CTE_SAMPLES) (RtoC 50)) v Hent).
    rewrite (quadf_div N (fun i k => Csum (fun t => gram_entry A (noise_std snr) g N t i k)
                                          CTE_SAMPLES)).
    rewrite (quadf_sum N (fun t => gram_entry A (noise_std snr) g N t)).
    rewrite Cdiv_RtoC by lra.
    destruct (Csum_nonneg (fun t => quadf N (gram_entry A (noise_std snr) g N t) v)
                CTE_SAMPLES) as [Hi Hre].
    { intros t. apply gram_entry_quadf. }
    cbn [Re Im]. rewrite Hi. split; [lra|].
    apply Rmult_le_pos; [exact Hre | lra].
Qed.

(** The default input of the notebook: five antennas 6 cm apart, a wave from
    60 degrees, an SNR of 2.5. *)
Lemma sample_cov_hermitian_psd_witness :
  column (response_vec 5 60 (6 / 100)) 5 /\ 0 < 5 / 2 /\
  exists M g',
    sample_cov (response_vec 5 60 (6 / 100)) (5 / 2) alternating = Returned (Finite M, g') /\
    nrows M = 5%nat /\ ncols M = 5%nat /\ hermitian M /\ positive_semidefinite M.
Proof.
  assert (H1 : column (response_vec 5 60 (6 / 100)) 5) by (split; reflexivity).
  assert (H2 : 0 < 5 / 2) by lra.
  split; [exact H1|]. split; [exact H2|].
  exact (sample_cov_hermitian_psd (response_vec 5 60 (6 / 100)) 5 (5 / 2) alternating H1 H2).
Defined.

(** C5, as stated, fails: after one seeding, a second call of [sample_cov]
    on the same input continues with the next draws of the generator.  With
    one antenna, standard deviation 1 and a generator whose first draw is 1
    and whose other draws are 0, the first call returns [53/50] and the
    second returns [1]. *)
Lemma second_invocation_differs :
  exists M1 M2,
    two_invocations (response_vec 1 0 1) (1 / 2) pulse = Returned (Finite M1, Finite M2) /\
    at_ M1 0 0 = mkC (53 / 50) 0 /\ at_ M2 0 0 = mkC 1 0 /\
    at_ M1 0 0 <> at_ M2 0 0.
Proof.
  destruct (sample_cov_column (response_vec 1 0 1) (1 / 2) 1
              (response_vec_column 1 0 1) ltac:(lra) pulse)
    as (M1 & g1 & Hcov1 & _ & _ & Hg1 & Hent1).
  destruct (sample_cov_column (response_vec 1 0 1) (1 / 2) 1
              (response_vec_column 1 0 1) ltac:(lra) g1)
    as (M2 & g2 & Hcov2 & _ & _ & _ & Hent2).
  assert (E1 : at_ M1 0 0 = mkC (53 / 50) 0).
  { rewrite Hent1 by lia. rewrite noise_std_half.
    unfold CTE_SAMPLES. rewrite Csum_shift.
    rewrite (Csum_ext _ (fun _ => mkC 1 0)).
    - rewrite Csum_const, gram_entry_single, single_entry.
      replace (INR 49) with 49 by (simpl; lra).
      rewrite Cdiv_RtoC by lra. unfold pulse. simpl. apply C_eq; simpl; field.
    - intros t _. rewrite gram_entry_single, single_entry.
      unfold pulse. simpl. apply C_eq; simpl; ring. }
  assert (E2 : at_ M2 0 0 = mkC 1 0).
  { rewrite Hent2 by lia. rewrite noise_std_half.
    rewrite (Csum_ext _ (fun _ => mkC 1 0)); [apply Csum_const_50|].
    intros t _. rewrite gram_entry_single, single_entry, Hg1.
    unfold pulse. replace ((CTE_SAMPLES * 1 + t =? 0)%nat) with false
      by (symmetry; apply Nat.eqb_neq; unfold CTE_SAMPLES; lia).
    apply C_eq; simpl; ring. }
  exists M1, M2. unfold two_invocations. rewrite Hcov1. cbn [bind].
  rewrite Hcov2. cbn [bind].
  split; [reflexivity|]. split; [exact E1|]. split; [exact E2|].
  rewrite E1, E2. intros H. apply (f_equal Re) in H. simpl in H. lra.
Qed.

(** C5, amended.  [sample_cov] is a function of the steering vector, the SNR
    and the state of the generator at the call: it reads the next
    [CTE_SAMPLES * N] draws and nothing else of the state, so two calls that
    start from states with the same next draws (the same seed, for one)
    return the same matrix; and it leaves the generator advanced by that
    many draws. *)
Theorem sample_cov_reads_generator_state (A : mat) (N : nat) (snr : R) (g : rng) :
  column A N -> 0 < snr ->
  exists M g',
    sample_cov A snr g = Returned (Finite M, g') /\
    (forall n, g' n = g (CTE_SAMPLES * N + n)%nat) /\
    (forall h : rng, (forall k, (k < CTE_SAMPLES * N)%nat -> h k = g k) ->
       result_of (sample_cov A snr h) = Returned (Finite M)).
Proof.
  intros HA Hs.
  destruct (sample_cov_column A snr N HA Hs g) as (M & g' & Hcov & _ & _ & Hg' & _).
  exists M, g'. split; [exact Hcov|]. split; [exact Hg'|].
  intros h Hh. rewrite (sample_cov_agree A snr h g).
  - rewrite Hcov. reflexivity.
  - destruct HA as [-> ->]. rewrite Nat.mul_1_r. exact Hh.
Qed.

(** One antenna, an SNR of 0.5, the generator whose first draw is 1. *)
Lemma sample_cov_reads_generator_state_witness :
  column (response_vec 1 0 1) 1 /\ 0 < 1 / 2 /\
  exists M g',
    sample_cov (response_vec 1 0 1) (1 / 2) pulse = Returned (Finite M, g') /\
    (forall n, g' n = pulse (CTE_SAMPLES * 1 + n)%nat) /\
    (forall h : rng, (forall k, (k < CTE_SAMPLES * 1)%nat -> h k = pulse k) ->
       result_of (sample_cov (response_vec 1 0 1) (1 / 2) h) = Returned (Finite M)).
Proof.
  assert (H1 : column (response_vec 1 0 1) 1) by (split; reflexivity).
  assert (H2 : 0 < 1 / 2) by lra.
  split; [exact H1|]. split; [exact H2|].
  exact (sample_cov_reads_generator_state (response_vec 1 0 1) 1 (1 / 2) pulse H1 H2).
Defined.

(* ================================================================= *)
(** * The MUSIC spectrum: claims C2 and C9 *)

(** C2, as stated, fails: [music] takes the eigenvectors in the order in which
    the decomposition returns them.  For the covariance [diag(1, 2, 3)],
    decomposed with the eigenvalues in the order 1, 2, 3 and the unit vectors
    as eigenvectors, the subspace that is kept is made of the eigenvectors of
    the eigenvalues 2 and 3: the eigenvector of the largest eigenvalue is in
    it, and that of the smallest is not. *)
Lemma eig_order_is_kept :
  let w := fst (eig_in_order diag3) in
  let V := snd (eig_in_order diag3) in
  let E := non_noise_cov_eigvecs eig_in_order diag3 in
  hermitian diag3 /\
  (forall k i, (k < 3)%nat -> (i < 3)%nat ->
     Csum (fun j => Cmul (at_ diag3 i j) (V j k)) 3 = Cmul (w k) (V i k)) /\
  w 0%nat = RtoC 1 /\ w 1%nat = RtoC 2 /\ w 2%nat = RtoC 3 /\
  nrows E = 3%nat /\ ncols E = 2%nat /\
  (forall i, at_ E i 0 = V i 1%nat /\ at_ E i 1 = V i 2%nat) /\
  (forall c, (c < 2)%nat -> at_ E 0 c <> V 0%nat 0%nat).
Proof.
  cbv zeta. split.
  { split; [reflexivity|]. intros i k Hi Hk. unfold diag3; simpl.
    destruct i as [|[|[|i]]]; destruct k as [|[|[|k]]]; simpl in *; try lia; cring. }
  split.
  { intros k i Hk Hi.
    destruct i as [|[|[|i]]]; destruct k as [|[|[|k]]]; try lia;
      unfold diag3, eig_in_order; simpl; cring. }
  unfold diag3, eig_in_order; simpl.
  split; [cring|]. split; [cring|]. split; [cring|].
  split; [reflexivity|]. split; [reflexivity|].
  split; [intros i; split; reflexivity|].
  intros c Hc H. destruct c as [|[|c]]; try lia;
    apply (f_equal Re) in H; simpl in H; lra.
Qed.

(** C2, amended.  For a square covariance matrix of size [N] and one source,
    [1 < N], [music] does not sort the eigenpairs.  It discards the
    eigenvalues and uses in the denominator of the pseudo-power the
    [N - 1] columns [1 .. N - 1] of the eigenvector array, in the order in
    which the decomposition returned them. *)
Theorem music_subspace_in_eig_order (eig : eig_routine) (A : mat) (spacing : R) :
  (NUM_SOURCES < nrows A)%nat -> nrows A = ncols A ->
  let E := non_noise_cov_eigvecs eig A in
  nrows E = nrows A /\ ncols E = (nrows A - NUM_SOURCES)%nat /\
  (forall i j, at_ E i j = snd (eig A) i (NUM_SOURCES + j)%nat) /\
  (forall other : mat -> nat -> C,
     non_noise_cov_eigvecs (fun B => (other B, snd (eig B))) A = E) /\
  music eig (Finite A) spacing =
  Returned (search_grid,
            map (fun angle =>
                   np_reciprocal
                     (music_denominator E
                        (response_vec (Z.of_nat (nrows A)) angle spacing)))
                search_grid).
Proof.
  intros HN Hsq E.
  split; [reflexivity|]. split; [apply non_noise_cov_eigvecs_ncols|].
  split; [intros i j; apply non_noise_cov_eigvecs_entry; lia|].
  split; [intros other; reflexivity|].
  apply music_square, Hsq.
Qed.

(** The covariance [diag(1, 2, 3)]: columns 1 and 2 are kept. *)
Lemma music_subspace_in_eig_order_witness :
  (NUM_SOURCES < nrows diag3)%nat /\ nrows diag3 = ncols diag3 /\
  ncols (non_noise_cov_eigvecs eig_in_order diag3) = (nrows diag3 - NUM_SOURCES)%nat /\
  (forall i j, at_ (non_noise_cov_eigvecs eig_in_order diag3) i j
               = snd (eig_in_order diag3) i (NUM_SOURCES + j)%nat).
Proof.
  assert (H1 : (NUM_SOURCES < nrows diag3)%nat) by (unfold NUM_SOURCES; simpl; lia).
  assert (H2 : nrows diag3 = ncols diag3) by reflexivity.
  split; [exact H1|]. split; [exact H2|].
  pose proof (music_subspace_in_eig_order eig_in_order diag3 (6 / 100) H1 H2) as H.
  cbv zeta in H. split.
  - exact (proj1 (proj2 H)).
  - exact (proj1 (proj2 (proj2 H))).
Defined.

(** C9.  On a square covariance matrix, not empty, [music] returns a grid of
    exactly 360 angles, evenly spaced from -90 to 90 degrees whatever the
    matrix is, and a spectrum of the same length whose element [i] is the
    pseudo-power [1 / (a* E E* a)] at grid angle [i]. *)
Theorem music_grid_and_spectrum (eig : eig_routine) (A : mat) (spacing : R) :
  (1 <= nrows A)%nat -> nrows A = ncols A ->
  exists angles powers,
    music eig (Finite A) spacing = Returned (angles, powers) /\
    length angles = 360%nat /\ length powers = 360%nat /\
    (forall i, (i < 360)%nat -> nth i angles 0 = -90 + INR i * (180 / 359)) /\
    nth 0 angles 0 = -90 /\ nth 359 angles 0 = 90 /\
    (forall i, (i < 360)%nat ->
       nth i powers CInfNaN = pseudo_power eig A spacing (nth i angles 0)).
Proof.
  intros _ Hsq. rewrite (music_square eig A spacing Hsq).
  fold search_grid.
  assert (Hlen : length search_grid = 360%nat) by apply np_linspace_length.
  assert (Hnth : forall i, (i < 360)%nat -> nth i search_grid 0 = -90 + INR i * (180 / 359)).
  { intros i Hi. unfold search_grid. rewrite np_linspace_nth by exact Hi.
    unfold MAX_SEARCH_ANGLE, NUM_ANGLES_TO_SEARCH.
    replace (INR (360 - 1)) with 359 by (simpl; lra). lra. }
  exists search_grid, (map (pseudo_power eig A spacing) search_grid).
  split; [reflexivity|]. split; [exact Hlen|].
  split; [rewrite length_map; exact Hlen|].
  split; [exact Hnth|].
  split; [rewrite Hnth by lia; simpl; lra|].
  split; [rewrite Hnth by lia; replace (INR 359) with 359 by (simpl; lra); field|].
  intros i Hi. apply nth_map_in. rewrite Hlen. exact Hi.
Qed.

(** The covariance [diag(1, 2, 3)], the antennas 6 cm apart. *)
Lemma music_grid_and_spectrum_witness :
  (1 <= nrows diag3)%nat /\ nrows diag3 = ncols diag3 /\
  exists angles powers,
    music eig_in_order (Finite diag3) (6 / 100) = Returned (angles, powers) /\
    length angles = 360%nat /\ length powers = 360%nat /\
    (forall i, (i < 360)%nat -> nth i angles 0 = -90 + INR i * (180 / 359)) /\
    nth 0 angles 0 = -90 /\ nth 359 angles 0 = 90 /\
    (forall i, (i < 360)%nat ->
       nth i powers CInfNaN = pseudo_power eig_in_order diag3 (6 / 100) (nth i angles 0)).
Proof.
  assert (H0 : (1 <= nrows diag3)%nat) by (simpl; lia).
  assert (H1 : nrows diag3 = ncols diag3) by reflexivity.
  split; [exact H0|]. split; [exact H1|].
  exact (music_grid_and_spectrum eig_in_order diag3 (6 / 100) H0 H1).
Defined.

(* ================================================================= *)
(** * The angle extractor: claim C3 *)

(** C3, as stated, fails: the threshold is applied to the power itself, not
    to its decibel value.  On a spectrum of 360 positive powers whose only
    peak has height 1.1 (0.83 dB) at index 1, the code reports the grid angle
    of index 1, and the extractor of the specification, with its threshold
    of 1 dB, reports nothing. *)
Lemma low_peak_is_reported :
  length low_peak = 360%nat /\
  (forall v, In v low_peak -> exists p, v = Fin p /\ 0 < p) /\
  peak_angles search_grid low_peak = [nth 1 search_grid 0] /\
  extract_angles_spec search_grid low_peak 1 = [].
Proof.
  split; [exact low_peak_length|]. split; [exact low_peak_positive|]. split.
  - unfold peak_angles. rewrite find_peaks_low_peak. reflexivity.
  - unfold extract_angles_spec.
    rewrite (filter_none _ _ spec_peak_low_peak). reflexivity.
Qed.

(** C3, amended.  The angles that are marked are the grid angles at the
    peaks that [find_peaks] finds in the powers themselves (the decibel
    values are only plotted): the midpoints of the flat tops, inside the
    array, higher than the sample before and the sample after, among them
    every inner sample higher than both its neighbours, whose power is at
    least 1.  They come in ascending order of index, hence of angle on the
    search grid. *)
Theorem peak_angles_on_linear_power (grid : list R) (powers : list xreal) :
  peak_angles grid powers = map (fun p => nth p grid 0) (find_peaks powers 1) /\
  StronglySorted lt (find_peaks powers 1) /\
  (forall p, In p (find_peaks powers 1) <->
             flat_top_mid powers p /\ xleb (Fin 1) (nth p powers NaN) = true) /\
  (forall p, In p (find_peaks powers 1) -> (1 <= p)%nat /\ (p + 1 < length powers)%nat) /\
  (forall i, (1 <= i)%nat -> (i + 1 < length powers)%nat ->
     xltb (nth (i - 1) powers NaN) (nth i powers NaN) = true ->
     xltb (nth (i + 1) powers NaN) (nth i powers NaN) = true ->
     xleb (Fin 1) (nth i powers NaN) = true ->
     In i (find_peaks powers 1)) /\
  (length powers = NUM_ANGLES_TO_SEARCH ->
     StronglySorted Rlt (peak_angles search_grid powers)) /\
  (forall eig n theta snr d g,
     match draw_pseudo_spectrum eig n theta snr d g with
     | Returned (pl, _) =>
         exists linear,
           plot_db pl = map decibels linear /\
           estimated_angles pl = peak_angles (plot_angles pl) linear
     | _ => True
     end).
Proof.
  split; [reflexivity|]. split; [apply find_peaks_sorted|].
  split; [intros p; apply find_peaks_spec|].
  split; [intros p; apply find_peaks_inner|]. split.
  { intros i Hi Hlen Hl Hr Hh. apply find_peaks_spec. split; [|exact Hh].
    apply strict_maximum_flat_top; assumption. }
  split.
  { intros Hlen. unfold peak_angles. apply search_grid_sorted.
    - apply find_peaks_sorted.
    - apply Forall_forall. intros p Hp. apply find_peaks_inner in Hp. lia. }
  apply draw_pseudo_spectrum_plot.
Qed.

(** The spectrum with the low peak, on the search grid. *)
Lemma peak_angles_on_linear_power_witness :
  length low_peak = NUM_ANGLES_TO_SEARCH /\
  (1 <= 1)%nat /\ (1 + 1 < length low_peak)%nat /\
  StronglySorted Rlt (peak_angles search_grid low_peak) /\
  (forall p, In p (find_peaks low_peak 1) ->
     (1 <= p)%nat /\ (p + 1 < length low_peak)%nat).
Proof.
  assert (H1 : length low_peak = NUM_ANGLES_TO_SEARCH) by reflexivity.
  split; [exact H1|]. split; [lia|]. split; [rewrite H1; unfold NUM_ANGLES_TO_SEARCH; lia|].
  split.
  - exact (proj1 (proj2 (proj2 (proj2 (proj2 (proj2
             (peak_angles_on_linear_power search_grid low_peak)))))) H1).
  - exact (proj1 (proj2 (proj2 (proj2 (peak_angles_on_linear_power search_grid low_peak))))).
Defined.

(* ================================================================= *)
(** * Inputs outside the documented ranges: claim C4 *)

(** C4, as stated, fails: one antenna (fewer than 2, and not more than the
    number of sources) with a valid SNR is not rejected.  The pipeline runs
    to its end and returns the search grid, a curve that is infinite
    everywhere, and no estimated angle. *)
Lemma single_antenna_is_not_rejected :
  (1 < 2)%Z /\ (Z.of_nat NUM_SOURCES >= 1)%Z /\
  exists g',
    draw_pseudo_spectrum eig_in_order 1 60 (5 / 2) 6 alternating =
    Returned (mkPlot search_grid (repeat PosInf NUM_ANGLES_TO_SEARCH) [], g').
Proof.
  split; [lia|]. split; [unfold NUM_SOURCES; lia|].
  apply draw_single_antenna. lra.
Qed.

(** C4, amended.  The pipeline checks none of its inputs before it computes.
    One antenna with a positive SNR is accepted: every pseudo-power is the
    quotient by a zero denominator, the curve is infinite everywhere and no
    angle is estimated.  An SNR of 0 stops the pipeline with Python's
    [ZeroDivisionError], raised by the division [0.5 / snr] in
    [sample_cov], after the steering vector has been computed.  A negative
    SNR is not rejected either: the square root in [sample_cov] gives a NaN,
    [sample_cov] draws its [50 N] numbers all the same and returns an [N] by
    [N] matrix of NaNs, and, with at least one antenna, the pipeline stops
    only in [music], with the [LinAlgError] that [np.linalg.eig] raises on a
    matrix that holds a NaN. *)
Theorem pipeline_checks_no_input (eig : eig_routine) (theta d : R) (g : rng) :
  (forall snr, 0 < snr ->
     exists g',
       draw_pseudo_spectrum eig 1 theta snr d g =
       Returned (mkPlot search_grid (repeat PosInf NUM_ANGLES_TO_SEARCH) [], g')) /\
  (forall n, draw_pseudo_spectrum eig n theta 0 d g = Raised ZeroDivisionError) /\
  (forall n,
     sample_cov (response_vec n theta (d / 100)) 0 g = Raised ZeroDivisionError) /\
  (forall n snr, (1 <= n)%Z -> snr < 0 ->
     (exists g',
        sample_cov (response_vec n theta (d / 100)) snr g
          = Returned (AllNaN (Z.to_nat n) (Z.to_nat n), g') /\
        forall k, g' k = g (CTE_SAMPLES * Z.to_nat n + k)%nat) /\
     draw_pseudo_spectrum eig n theta snr d g = Raised LinAlgError).
Proof.
  split; [intros snr Hs; apply draw_single_antenna; exact Hs|].
  split; [|split].
  - intros n. unfold draw_pseudo_spectrum. rewrite sample_cov_snr_zero. reflexivity.
  - intros n. apply sample_cov_snr_zero.
  - intros n snr Hn Hs. split.
    + apply sample_cov_snr_negative; [exact Hs | apply response_vec_column | lia].
    + apply draw_snr_negative; assumption.
Qed.

(** One antenna at an SNR of 2.5, and five antennas at an SNR of -1. *)
Lemma pipeline_checks_no_input_witness :
  0 < 5 / 2 /\ (1 <= 5)%Z /\ -1 < 0 /\
  (exists g',
     draw_pseudo_spectrum eig_in_order 1 60 (5 / 2) 6 pulse =
     Returned (mkPlot search_grid (repeat PosInf NUM_ANGLES_TO_SEARCH) [], g')) /\
  (exists g',
     sample_cov (response_vec 5 60 (6 / 100)) (-1) pulse = Returned (AllNaN 5 5, g') /\
     forall k, g' k = pulse (CTE_SAMPLES * 5 + k)%nat) /\
  draw_pseudo_spectrum eig_in_order 5 60 (-1) 6 pulse = Raised LinAlgError.
Proof.
  assert (H1 : 0 < 5 / 2) by lra.
  assert (H2 : (1 <= 5)%Z) by lia.
  assert (H3 : -1 < 0) by lra.
  split; [exact H1|]. split; [exact H2|]. split; [exact H3|]. split.
  - exact (proj1 (pipeline_checks_no_input eig_in_order 60 6 pulse) (5 / 2) H1).
  - exact (proj2 (proj2 (proj2 (pipeline_checks_no_input eig_in_order 60 6 pulse)))
             5%Z (-1) H2 H3).
Defined.

(* ================================================================= *)
(** * Further properties of the steering vector *)

Lemma phase_additive theta a b : phase theta (a + b) = phase theta a + phase theta b.
Proof. unfold phase. pose proof CTE_WAVELENGTH_pos. field. lra. Qed.

Lemma deg2rad_opp theta : deg2rad (- theta) = - deg2rad theta.
Proof. unfold deg2rad. ring. Qed.

Lemma phase_opp theta a : phase (- theta) a = - phase theta a.
Proof.
  unfold phase. rewrite deg2rad_opp, sin_neg.
  pose proof CTE_WAVELENGTH_pos. field. lra.
Qed.

Lemma cos_period_Z x (z : Z) : cos (x + 2 * IZR z * PI) = cos x.
Proof.
  destruct (Z_le_gt_dec 0 z) as [Hz|Hz].
  - rewrite <- (Z2Nat.id z Hz), <- INR_IZR_INZ. apply cos_period.
  - rewrite <- (cos_period (x + 2 * IZR z * PI) (Z.to_nat (- z))).
    rewrite INR_IZR_INZ, Z2Nat.id by lia. rewrite opp_IZR. f_equal. ring.
Qed.

Lemma sin_period_Z x (z : Z) : sin (x + 2 * IZR z * PI) = sin x.
Proof.
  destruct (Z_le_gt_dec 0 z) as [Hz|Hz].
  - rewrite <- (Z2Nat.id z Hz), <- INR_IZR_INZ. apply sin_period.
  - rewrite <- (sin_period (x + 2 * IZR z * PI) (Z.to_nat (- z))).
    rewrite INR_IZR_INZ, Z2Nat.id by lia. rewrite opp_IZR. f_equal. ring.
Qed.

(** X1.  The array is uniform and linear: the steering vector is a geometric
    progression.  Entry [k + m] is the product of entries [k] and [m];
    so entry [k + 1] is entry [k] turned by the phase of entry 1. *)
Theorem response_vec_progression (num_antennas : Z) (incident_angle spacing : R)
    (k m : nat) :
  (k + m < Z.to_nat num_antennas)%nat ->
  at_ (response_vec num_antennas incident_angle spacing) (k + m) 0 =
  Cmul (at_ (response_vec num_antennas incident_angle spacing) k 0)
       (at_ (response_vec num_antennas incident_angle spacing) m 0).
Proof.
  intros H. rewrite !response_vec_entry by lia.
  rewrite !steering_entry_phase, plus_INR, Rmult_plus_distr_r, phase_additive.
  rewrite cos_plus, sin_plus. apply C_eq; simpl; ring.
Qed.

(** Five antennas 6 cm apart, a wave from 60 degrees: entry 3 from entries 1 and 2. *)
Lemma response_vec_progression_witness :
  (1 + 2 < Z.to_nat 5)%nat /\
  at_ (response_vec 5 60 (6 / 100)) (1 + 2) 0 =
  Cmul (at_ (response_vec 5 60 (6 / 100)) 1 0) (at_ (response_vec 5 60 (6 / 100)) 2 0).
Proof.
  assert (H : (1 + 2 < Z.to_nat 5)%nat) by (simpl; lia).
  split; [exact H|].
  exact (response_vec_progression 5 60 (6 / 100) 1 2 H).
Defined.

(** X2.  A wave from the mirrored angle gives the conjugate steering vector. *)
Theorem response_vec_mirror (num_antennas : Z) (incident_angle spacing : R) (k : nat) :
  (k < Z.to_nat num_antennas)%nat ->
  at_ (response_vec num_antennas (- incident_angle) spacing) k 0 =
  Cconj (at_ (response_vec num_antennas incident_angle spacing) k 0).
Proof.
  intros H. rewrite !response_vec_entry by exact H.
  rewrite !steering_entry_phase, phase_opp, cos_neg, sin_neg. reflexivity.
Qed.

(** Five antennas 6 cm apart, waves from -60 and 60 degrees. *)
Lemma response_vec_mirror_witness :
  (4 < Z.to_nat 5)%nat /\
  at_ (response_vec 5 (- 60) (6 / 100)) 4 0 =
  Cconj (at_ (response_vec 5 60 (6 / 100)) 4 0).
Proof.
  assert (H : (4 < Z.to_nat 5)%nat) by (simpl; lia).
  split; [exact H|].
  exact (response_vec_mirror 5 60 (6 / 100) 4 H).
Defined.

(** X3.  Spatial aliasing: when the spacing times the difference of the
    sines of two angles is a whole number of wavelengths, the two angles
    have the same steering vector, entry by entry. *)
Theorem response_vec_aliasing (num_antennas : Z) (angle1 angle2 spacing : R)
    (wavelengths : Z) (k : nat) :
  spacing * (sin (deg2rad angle1) - sin (deg2rad angle2))
    = IZR wavelengths * CTE_WAVELENGTH ->
  (k < Z.to_nat num_antennas)%nat ->
  at_ (response_vec num_antennas angle1 spacing) k 0 =
  at_ (response_vec num_antennas angle2 spacing) k 0.
Proof.
  intros Halias Hk. rewrite !response_vec_entry by exact Hk.
  rewrite !steering_entry_phase.
  assert (Hp : phase angle1 (INR k * spacing)
               = phase angle2 (INR k * spacing)
                 + 2 * IZR (Z.of_nat k * wavelengths) * PI).
  { unfold phase. rewrite mult_IZR, <- INR_IZR_INZ.
    pose proof CTE_WAVELENGTH_pos as Hw.
    apply (Rmult_eq_reg_r CTE_WAVELENGTH); [|lra].
    replace (2 * PI * (INR k * spacing) * sin (deg2rad angle1) / CTE_WAVELENGTH
             * CTE_WAVELENGTH)
      with (2 * PI * INR k * (spacing * sin (deg2rad angle1))) by (field; lra).
    replace ((2 * PI * (INR k * spacing) * sin (deg2rad angle2) / CTE_WAVELENGTH
              + 2 * (INR k * IZR wavelengths) * PI) * CTE_WAVELENGTH)
      with (2 * PI * INR k * (spacing * sin (deg2rad angle2)
                              + IZR wavelengths * CTE_WAVELENGTH)) by (field; lra).
    rewrite <- Halias. ring. }
  rewrite Hp, cos_period_Z, sin_period_Z. reflexivity.
Qed.

Lemma sin_deg2rad_90 : sin (deg2rad 90) = 1.
Proof.
  unfold deg2rad. replace (90 * (PI / 180)) with (PI / 2) by field. apply sin_PI2.
Qed.

Lemma sin_deg2rad_0 : sin (deg2rad 0) = 0.
Proof. unfold deg2rad. replace (0 * (PI / 180)) with 0 by ring. apply sin_0. Qed.

(** Antennas one wavelength apart: the end-fire direction, 90 degrees, looks
    like broadside, 0 degrees. *)
Lemma response_vec_aliasing_witness :
  CTE_WAVELENGTH * (sin (deg2rad 90) - sin (deg2rad 0)) = IZR 1 * CTE_WAVELENGTH /\
  (3 < Z.to_nat 5)%nat /\
  at_ (response_vec 5 90 CTE_WAVELENGTH) 3 0 = at_ (response_vec 5 0 CTE_WAVELENGTH) 3 0.
Proof.
  assert (H1 : CTE_WAVELENGTH * (sin (deg2rad 90) - sin (deg2rad 0))
               = IZR 1 * CTE_WAVELENGTH)
    by (rewrite sin_deg2rad_90, sin_deg2rad_0; ring).
  assert (H2 : (3 < Z.to_nat 5)%nat) by (simpl; lia).
  split; [exact H1|]. split; [exact H2|].
  exact (response_vec_aliasing 5 90 0 CTE_WAVELENGTH 1 3 H1 H2).
Defined.

(* ================================================================= *)
(** * Further properties of the covariance estimator *)

Lemma Rsum_ext (f h : nat -> R) n :
  (forall i, (i < n)%nat -> f i = h i) -> Rsum f n = Rsum h n.
Proof.
  induction n as [|n IH]; intros H; simpl; [reflexivity|].
  rewrite IH by (intros; apply H; lia). rewrite H by lia. reflexivity.
Qed.

Lemma Rsum_append (f : nat -> R) a b :
  Rsum f (a + b) = Rsum f a + Rsum (fun j => f (a + j)%nat) b.
Proof.
  induction b as [|b IH]; simpl.
  - rewrite Nat.add_0_r. ring.
  - replace (a + S b)%nat with (S (a + b)) by lia. simpl. rewrite IH. ring.
Qed.

(** The draws of [T] sample times, [N] at a time, are the first [T * N] draws. *)
Lemma Rsum_blocks (f : nat -> R) N T :
  Rsum (fun t => Rsum (fun j => f (t * N + j)%nat) N) T = Rsum f (T * N).
Proof.
  induction T as [|T IH]; simpl; [reflexivity|].
  rewrite IH. replace (N + T * N)%nat with (T * N + N)%nat by lia.
  rewrite Rsum_append. reflexivity.
Qed.

(** One sample time: the product of the broadcast sample with its conjugate
    transpose, written with the sum and the sum of squares of the draws. *)
Lemma gram_sum_expand (a b : C) (sigma : R) (n : nat -> R) J :
  Csum (fun j => Cmul (Cadd a (RtoC (sigma * n j)))
                      (Cconj (Cadd b (RtoC (sigma * n j))))) J =
  Cadd (Cadd (Cmul (RtoC (INR J)) (Cmul a (Cconj b)))
             (Cmul (RtoC (sigma * Rsum n J)) (Cadd a (Cconj b))))
       (RtoC (sigma * sigma * Rsum (fun j => n j * n j) J)).
Proof.
  induction J as [|J IH].
  - simpl. cring.
  - change (Csum ?f (S J)) with (Cadd (Csum f J) (f J)). rewrite IH, S_INR.
    simpl Rsum. cring.
Qed.

Lemma sum_of_expansions (c c1 : C) (s s2 : R) (m : R) (f h : nat -> R) T :
  Csum (fun t => Cadd (Cadd (Cmul (RtoC m) c) (Cmul (RtoC (s * f t)) c1))
                      (RtoC (s2 * h t))) T =
  Cadd (Cadd (Cmul (RtoC (INR T * m)) c) (Cmul (RtoC (s * Rsum f T)) c1))
       (RtoC (s2 * Rsum h T)).
Proof.
  induction T as [|T IH].
  - simpl. cring.
  - change (Csum ?f (S T)) with (Cadd (Csum f T) (f T)). rewrite IH, S_INR.
    simpl Rsum. cring.
Qed.

(** X4.  What [sample_cov] computes on a steering vector of [N] entries, for
    a positive SNR: the [N] draws of a sample time are each added to the
    whole steering vector, which gives [N] columns per sample time; entry
    [(i, k)] of the result is the sum, over the 50 sample times and the [N]
    draws [n] of each, of [(s_i + sigma n) conj(s_k + sigma n)], divided
    by 50, with [sigma = sqrt(0.5 / snr)]. *)
Theorem sample_cov_entries (A : mat) (N : nat) (snr : R) (g : rng) :
  column A N -> 0 < snr ->
  exists M g',
    sample_cov A snr g = Returned (Finite M, g') /\
    nrows M = N /\ ncols M = N /\
    forall i k, (i < N)%nat -> (k < N)%nat ->
      at_ M i k =
      Cdiv (Csum (fun t =>
              Csum (fun j =>
                Cmul (Cadd (at_ A i 0) (RtoC (sqrt (1 / 2 / snr) * g (t * N + j)%nat)))
                     (Cconj (Cadd (at_ A k 0)
                                  (RtoC (sqrt (1 / 2 / snr) * g (t * N + j)%nat)))))
                N) 50)
           (RtoC 50).
Proof.
  intros HA Hs.
  destruct (sample_cov_column A snr N HA Hs g) as (M & g' & Hcov & Hr & Hc & _ & Hent).
  exists M, g'. split; [exact Hcov|]. split; [exact Hr|]. split; [exact Hc|].
  exact Hent.
Qed.

(** The default input of the notebook. *)
Lemma sample_cov_entries_witness :
  column (response_vec 5 60 (6 / 100)) 5 /\ 0 < 5 / 2 /\
  exists M g',
    sample_cov (response_vec 5 60 (6 / 100)) (5 / 2) pulse = Returned (Finite M, g') /\
    nrows M = 5%nat /\ ncols M = 5%nat.
Proof.
  assert (H1 : column (response_vec 5 60 (6 / 100)) 5) by (split; reflexivity).
  assert (H2 : 0 < 5 / 2) by lra.
  split; [exact H1|]. split; [exact H2|].
  destruct (sample_cov_entries (response_vec 5 60 (6 / 100)) 5 (5 / 2) pulse H1 H2)
    as (M & g' & Hcov & Hr & Hc & _).
  exists M, g'. split; [exact Hcov|]. split; [exact Hr | exact Hc].
Defined.

(** X5.  The matrix that [sample_cov] returns on a steering vector [s] of
    [N] entries is [N s s*] plus terms that depend on the draws only
    through two numbers, the sum [S1] of the [50 N] draws of the call and
    the sum [S2] of their squares, each divided by 50:
    [M(i,k) = N s_i conj(s_k) + sigma S1 (s_i + conj(s_k)) + sigma^2 S2].
    So the noise only adds multiples of [s 1*], [1 s*] and [1 1*], where
    [1] is the all-ones vector. *)
Theorem sample_cov_closed_form (A : mat) (N : nat) (snr : R) (g : rng) :
  column A N -> 0 < snr ->
  let sigma := sqrt (1 / 2 / snr) in
  let S1 := Rsum g (CTE_SAMPLES * N) / 50 in
  let S2 := Rsum (fun n => g n * g n) (CTE_SAMPLES * N) / 50 in
  exists M g',
    sample_cov A snr g = Returned (Finite M, g') /\
    forall i k, (i < N)%nat -> (k < N)%nat ->
      at_ M i k =
      Cadd (Cadd (Cmul (RtoC (INR N)) (Cmul (at_ A i 0) (Cconj (at_ A k 0))))
                 (Cmul (RtoC (sigma * S1)) (Cadd (at_ A i 0) (Cconj (at_ A k 0)))))
           (RtoC (sigma * sigma * S2)).
Proof.
  intros HA Hs sigma S1 S2.
  destruct (sample_cov_column A snr N HA Hs g) as (M & g' & Hcov & _ & _ & _ & Hent).
  exists M, g'. split; [exact Hcov|].
  intros i k Hi Hk. rewrite (Hent i k Hi Hk). fold sigma.
  unfold gram_entry.
  rewrite (Csum_ext _ (fun t =>
     Cadd (Cadd (Cmul (RtoC (INR N)) (Cmul (at_ A i 0) (Cconj (at_ A k 0))))
                (Cmul (RtoC (sigma * Rsum (fun j => g (t * N + j)%nat) N))
                      (Cadd (at_ A i 0) (Cconj (at_ A k 0)))))
          (RtoC (sigma * sigma
                 * Rsum (fun j => g (t * N + j)%nat * g (t * N + j)%nat) N))))
    by (intros t _; apply (gram_sum_expand _ _ sigma (fun j => g (t * N + j)%nat))).
  rewrite sum_of_expansions.
  rewrite (Rsum_blocks g N CTE_SAMPLES).
  rewrite (Rsum_blocks (fun n => g n * g n) N CTE_SAMPLES).
  rewrite INR_CTE_SAMPLES, Cdiv_RtoC by lra.
  unfold S1, S2. apply C_eq; simpl; field.
Qed.

(** One antenna, an SNR of 0.5, the generator whose first draw is 1. *)
Lemma sample_cov_closed_form_witness :
  column (response_vec 1 0 1) 1 /\ 0 < 1 / 2 /\
  exists M g',
    sample_cov (response_vec 1 0 1) (1 / 2) pulse = Returned (Finite M, g') /\
    forall i k, (i < 1)%nat -> (k < 1)%nat ->
      at_ M i k =
      Cadd (Cadd (Cmul (RtoC (INR 1))
                       (Cmul (at_ (response_vec 1 0 1) i 0)
                             (Cconj (at_ (response_vec 1 0 1) k 0))))
                 (Cmul (RtoC (sqrt (1 / 2 / (1 / 2))
                              * (Rsum pulse (CTE_SAMPLES * 1) / 50)))
                       (Cadd (at_ (response_vec 1 0 1) i 0)
                             (Cconj (at_ (response_vec 1 0 1) k 0)))))
           (RtoC (sqrt (1 / 2 / (1 / 2)) * sqrt (1 / 2 / (1 / 2))
                  * (Rsum (fun n => pulse n * pulse n) (CTE_SAMPLES * 1) / 50))).
Proof.
  assert (H1 : column (response_vec 1 0 1) 1) by (split; reflexivity).
  assert (H2 : 0 < 1 / 2) by lra.
  split; [exact H1|]. split; [exact H2|].
  exact (sample_cov_closed_form (response_vec 1 0 1) 1 (1 / 2) pulse H1 H2).
Defined.

Lemma nd_iadd_shape a b S :
  nd_iadd a b = Returned S -> shape0 S = shape0 a /\ shape1 S = shape1 a.
Proof.
  unfold nd_iadd. destruct (nd_add a b) as [S'|]; simpl; try discriminate.
  destruct ((shape0 S' =? shape0 a)%nat && (shape1 S' =? shape1 a)%nat) eqn:E;
    try discriminate.
  intros H. injection H as <-. apply andb_true_iff in E as [E1 E2].
  apply Nat.eqb_eq in E1, E2. split; assumption.
Qed.

Lemma sample_step_returned A snr n cov g cov' g' :
  sample_step A snr n (cov, g) = Returned (cov', g') ->
  shape0 cov' = shape0 cov /\ shape1 cov' = shape1 cov /\ g' = advance n g.
Proof.
  unfold sample_step.
  destruct (py_truediv (1 / 2) snr) as [q|]; simpl; try discriminate.
  destruct (iq_sample A (np_sqrt q) (map g (seq 0 n))) as [iq|]; simpl; try discriminate.
  destruct (nd_matmul iq (nd_T (nd_conjugate iq))) as [pr|]; simpl; try discriminate.
  destruct (nd_iadd cov pr) as [c|] eqn:Hadd; simpl; try discriminate.
  intros H. injection H as <- <-.
  apply nd_iadd_shape in Hadd as [Hr Hc]. repeat split; assumption.
Qed.

Lemma sample_loop_returned A snr n times :
  forall cov g cov' g',
  sample_loop A snr n times (cov, g) = Returned (cov', g') ->
  shape0 cov' = shape0 cov /\ shape1 cov' = shape1 cov /\
  forall k, g' k = g (length times * n + k)%nat.
Proof.
  induction times as [|t times IH]; intros cov g cov' g' H.
  - unfold sample_loop in H. simpl in H. injection H as <- <-. repeat split.
  - rewrite sample_loop_cons in H.
    destruct (sample_step A snr n (cov, g)) as [[c1 g1]|] eqn:Hstep;
      simpl in H; try discriminate.
    apply sample_step_returned in Hstep as (Hr1 & Hc1 & ->).
    apply IH in H as (Hr & Hc & Hg).
    split; [congruence|]. split; [congruence|].
    intros k. rewrite Hg. unfold advance. f_equal.
    change (length (t :: times)) with (S (length times)). lia.
Qed.

(** X6.  Whatever the shape of its input is, the matrix that [sample_cov]
    returns is square, of the size of the input (its number of elements),
    and the call leaves the generator 50 times that many draws further.
    This holds of a matrix of NaNs, which a negative SNR gives, as well. *)
Theorem sample_cov_returned (A : mat) (snr : R) (g : rng) (M : ndarray) (g' : rng) :
  sample_cov A snr g = Returned (M, g') ->
  shape0 M = (nrows A * ncols A)%nat /\ shape1 M = (nrows A * ncols A)%nat /\
  forall k, g' k = g (CTE_SAMPLES * (nrows A * ncols A) + k)%nat.
Proof.
  unfold sample_cov. intros H.
  destruct (sample_loop A snr (nrows A * ncols A) (np_linspace 0 CTE_TIME CTE_SAMPLES)
              (Finite (np_zeros (nrows A * ncols A) (nrows A * ncols A)), g))
    as [[c1 g1]|] eqn:Hloop; cbn [bind] in H; try discriminate.
  injection H as <- <-.
  apply sample_loop_returned in Hloop as (Hr & Hc & Hg).
  rewrite np_linspace_length in Hg.
  split; [destruct c1; exact Hr|]. split; [destruct c1; exact Hc|]. exact Hg.
Qed.

(** A call that returns: the default input of the notebook. *)
Lemma sample_cov_returned_witness :
  exists M g',
    sample_cov (response_vec 5 60 (6 / 100)) (5 / 2) alternating = Returned (Finite M, g') /\
    nrows M = (nrows (response_vec 5 60 (6 / 100))
               * ncols (response_vec 5 60 (6 / 100)))%nat /\
    ncols M = (nrows (response_vec 5 60 (6 / 100))
               * ncols (response_vec 5 60 (6 / 100)))%nat.
Proof.
  destruct (sample_cov_column (response_vec 5 60 (6 / 100)) (5 / 2) 5
              (response_vec_column 5 60 (6 / 100)) ltac:(lra) alternating)
    as (M & g' & Hcov & _).
  exists M, g'. split; [exact Hcov|].
  pose proof (sample_cov_returned _ _ _ _ _ Hcov) as (H1 & H2 & _).
  split; [exact H1 | exact H2].
Defined.

Lemma bc_dim_mismatch a b :
  (2 <= a)%nat -> (2 <= b)%nat -> a <> b -> bc_dim a b = None.
Proof.
  intros Ha Hb Hne. unfold bc_dim.
  destruct (a =? b)%nat eqn:E1; [apply Nat.eqb_eq in E1; contradiction|].
  destruct (a =? 1)%nat eqn:E2; [apply Nat.eqb_eq in E2; lia|].
  destruct (b =? 1)%nat eqn:E3; [apply Nat.eqb_eq in E3; lia|].
  reflexivity.
Qed.

Lemma sample_step_block A snr st :
  0 < snr -> (2 <= nrows A)%nat -> (2 <= ncols A)%nat ->
  sample_step A snr (nrows A * ncols A) st = Raised ValueError.
Proof.
  intros Hs Hr Hc. destruct st as [cov g]. unfold sample_step.
  pose proof (noise_std_defined snr Hs) as [Hq Hsigma].
  rewrite Hq. cbn [bind]. rewrite Hsigma.
  unfold iq_sample, scaled_row, nd_add, np_add. simpl.
  rewrite !length_map, length_seq.
  rewrite (bc_dim_mismatch (ncols A) (nrows A * ncols A)) by nia.
  destruct (bc_dim (nrows A) 1); reflexivity.
Qed.

(** X7.  An input with at least two rows and two columns makes [sample_cov]
    fail with [ValueError]: its noise, one draw per element, cannot be
    broadcast against the input. *)
Theorem sample_cov_rejects_blocks (A : mat) (snr : R) (g : rng) :
  0 < snr -> (2 <= nrows A)%nat -> (2 <= ncols A)%nat ->
  sample_cov A snr g = Raised ValueError.
Proof.
  intros Hs Hr Hc. unfold sample_cov. rewrite sample_loop_first.
  - rewrite sample_step_block by assumption. reflexivity.
  - apply sample_times_not_nil.
  - exists ValueError. intros st'. apply sample_step_block; assumption.
Qed.

(** A three by three input. *)
Lemma sample_cov_rejects_blocks_witness :
  0 < 5 / 2 /\ (2 <= nrows diag3)%nat /\ (2 <= ncols diag3)%nat /\
  sample_cov diag3 (5 / 2) pulse = Raised ValueError.
Proof.
  assert (H1 : 0 < 5 / 2) by lra.
  assert (H2 : (2 <= nrows diag3)%nat) by (simpl; lia).
  assert (H3 : (2 <= ncols diag3)%nat) by (simpl; lia).
  split; [exact H1|]. split; [exact H2|]. split; [exact H3|].
  exact (sample_cov_rejects_blocks diag3 (5 / 2) pulse H1 H2 H3).
Defined.

(* ================================================================= *)
(** * Further properties of the MUSIC spectrum *)

Lemma music_denominator_projection (E a : mat) :
  nrows a = nrows E ->
  music_denominator E a = Csum (fun c => RtoC (Cnorm2 (projection E a c))) (ncols E).
Proof. intros H. apply music_denominator_norm, H. Qed.

Lemma Csum_real (f : nat -> R) n : Csum (fun i => RtoC (f i)) n = RtoC (Rsum f n).
Proof. induction n as [|n IH]; simpl; [reflexivity|]. rewrite IH. cring. Qed.

Lemma Rsum_nonneg (f : nat -> R) n : (forall i, 0 <= f i) -> 0 <= Rsum f n.
Proof.
  intros H. induction n as [|n IH]; simpl; [lra|]. specialize (H n). lra.
Qed.

Lemma Rsum_zero_terms (f : nat -> R) n :
  (forall i, 0 <= f i) -> Rsum f n = 0 -> forall i, (i < n)%nat -> f i = 0.
Proof.
  intros H. induction n as [|n IH]; intros Hs i Hi; [lia|].
  simpl in Hs. pose proof (Rsum_nonneg f n H) as Hn. pose proof (H n) as Hfn.
  destruct (Nat.eq_dec i n) as [->|Hne]; [lra|].
  apply IH; [lra|lia].
Qed.

Lemma Rsum_all_zero (f : nat -> R) n :
  (forall i, (i < n)%nat -> f i = 0) -> Rsum f n = 0.
Proof.
  intros H. induction n as [|n IH]; simpl; [reflexivity|].
  rewrite IH by (intros; apply H; lia). rewrite H by lia. ring.
Qed.

Lemma Cnorm2_zero z : Cnorm2 z = 0 <-> z = C0.
Proof.
  split.
  - unfold Cnorm2. intros H. apply C_eq; simpl; nra.
  - intros ->. unfold Cnorm2, C0; simpl. ring.
Qed.

(** The denominator of a pseudo-power: the sum of the squared moduli of the
    components of [E* a]. *)
Lemma pseudo_power_denominator eig A d angle :
  let E := non_noise_cov_eigvecs eig A in
  let a := response_vec (Z.of_nat (nrows A)) angle d in
  music_denominator E a = RtoC (Rsum (fun c => Cnorm2 (projection E a c)) (ncols E)).
Proof.
  intros E a. rewrite music_denominator_projection.
  - apply Csum_real.
  - unfold a, E. rewrite response_vec_nrows, Nat2Z.id. reflexivity.
Qed.

Lemma np_reciprocal_real (r : R) :
  0 <= r ->
  (r = 0 /\ np_reciprocal (RtoC r) = CInfNaN) \/
  (0 < r /\ np_reciprocal (RtoC r) = CFin (mkC (/ r) 0)).
Proof.
  intros Hr. unfold np_reciprocal.
  destruct (Req_dec_T (Cnorm2 (RtoC r)) 0) as [E|E].
  - left. split; [|reflexivity]. apply Cnorm2_zero in E.
    apply (f_equal Re) in E. exact E.
  - right. assert (Hpos : 0 < r).
    { destruct Hr as [Hlt|<-]; [exact Hlt|]. exfalso. apply E.
      unfold Cnorm2, RtoC; simpl. ring. }
    split; [exact Hpos|]. f_equal.
    unfold Cdiv, Cnorm2, C1, RtoC; simpl. apply C_eq; simpl; field; lra.
Qed.

Lemma pseudo_power_positive eig A d angle : positive_power (pseudo_power eig A d angle).
Proof.
  unfold pseudo_power. rewrite pseudo_power_denominator.
  destruct (np_reciprocal_real
              (Rsum (fun c => Cnorm2 (projection (non_noise_cov_eigvecs eig A)
                       (response_vec (Z.of_nat (nrows A)) angle d) c))
                    (ncols (non_noise_cov_eigvecs eig A))))
    as [[_ ->]|[Hpos ->]].
  - apply Rsum_nonneg. intros c. apply Cnorm2_nonneg.
  - left. reflexivity.
  - right. eexists. split; [|reflexivity]. apply Rinv_0_lt_compat, Hpos.
Qed.

Lemma pseudo_power_infinite eig A d angle :
  let E := non_noise_cov_eigvecs eig A in
  let a := response_vec (Z.of_nat (nrows A)) angle d in
  pseudo_power eig A d angle = CInfNaN <->
  forall c, (c < ncols E)%nat -> projection E a c = C0.
Proof.
  intros E a. unfold pseudo_power.
  rewrite (pseudo_power_denominator eig A d angle). fold E a.
  set (s := Rsum (fun c => Cnorm2 (projection E a c)) (ncols E)).
  assert (Hs : 0 <= s) by (apply Rsum_nonneg; intros c; apply Cnorm2_nonneg).
  split.
  - intros H c Hc.
    destruct (np_reciprocal_real s Hs) as [[Hz _]|[_ Hfin]].
    + apply Cnorm2_zero.
      apply (Rsum_zero_terms (fun c => Cnorm2 (projection E a c)) (ncols E));
        [intros i; apply Cnorm2_nonneg | exact Hz | exact Hc].
    + rewrite Hfin in H. discriminate.
  - intros H.
    assert (Hz : s = 0).
    { apply Rsum_all_zero. intros c Hc. apply Cnorm2_zero, H, Hc. }
    rewrite Hz. apply np_reciprocal_zero.
Qed.

(** X8.  Every pseudo-power that [music] returns is a positive real number
    or infinite: taking [.real] discards an imaginary part that is zero, and
    the logarithm that is plotted is never taken of zero or of a negative
    number. *)
Theorem music_powers_positive (eig : eig_routine) (A : mat) (spacing : R) :
  (1 <= nrows A)%nat -> nrows A = ncols A ->
  exists powers,
    music eig (Finite A) spacing = Returned (search_grid, powers) /\
    length powers = NUM_ANGLES_TO_SEARCH /\
    Forall positive_power powers /\
    Forall plottable (map decibels (map xreal_part powers)).
Proof.
  intros _ Hsq. rewrite (music_square eig A spacing Hsq). fold search_grid.
  exists (map (pseudo_power eig A spacing) search_grid).
  split; [reflexivity|].
  split; [rewrite length_map; apply search_grid_length|].
  split.
  - apply Forall_forall. intros q Hq. apply in_map_iff in Hq as (angle & <- & _).
    apply pseudo_power_positive.
  - apply Forall_forall. intros v Hv.
    apply in_map_iff in Hv as (x & <- & Hx).
    apply in_map_iff in Hx as (q & <- & Hq).
    apply in_map_iff in Hq as (angle & <- & _).
    destruct (pseudo_power_positive eig A spacing angle) as [-> | (p & Hp & ->)].
    + left. reflexivity.
    + right. unfold decibels, np_log10, xreal_part. simpl.
      destruct (Rlt_dec 0 p) as [_|Hn]; [|contradiction].
      eexists. reflexivity.
Qed.

(** The covariance [diag(1, 2, 3)], the antennas 6 cm apart. *)
Lemma music_powers_positive_witness :
  (1 <= nrows diag3)%nat /\ nrows diag3 = ncols diag3 /\
  exists powers,
    music eig_in_order (Finite diag3) (6 / 100) = Returned (search_grid, powers) /\
    length powers = NUM_ANGLES_TO_SEARCH /\
    Forall positive_power powers /\
    Forall plottable (map decibels (map xreal_part powers)).
Proof.
  assert (H0 : (1 <= nrows diag3)%nat) by (simpl; lia).
  assert (H1 : nrows diag3 = ncols diag3) by reflexivity.
  split; [exact H0|]. split; [exact H1|].
  exact (music_powers_positive eig_in_order diag3 (6 / 100) H0 H1).
Defined.

(** X9.  A pseudo-power of [music] is infinite exactly at the grid angles
    whose steering vector is orthogonal to every column of the subspace that
    is kept; at every other grid angle it is the inverse of the squared norm
    of the projection [E* a]. *)
Theorem music_infinite_iff_orthogonal (eig : eig_routine) (A : mat) (spacing : R) :
  (1 <= nrows A)%nat -> nrows A = ncols A ->
  let E := non_noise_cov_eigvecs eig A in
  exists powers,
    music eig (Finite A) spacing = Returned (search_grid, powers) /\
    forall i, (i < NUM_ANGLES_TO_SEARCH)%nat ->
      let a := response_vec (Z.of_nat (nrows A)) (nth i search_grid 0) spacing in
      (nth i powers CInfNaN = CInfNaN <->
       forall c, (c < ncols E)%nat -> projection E a c = C0) /\
      (nth i powers CInfNaN <> CInfNaN ->
       nth i powers CInfNaN
       = CFin (mkC (/ Rsum (fun c => Cnorm2 (projection E a c)) (ncols E)) 0)).
Proof.
  intros _ Hsq E. rewrite (music_square eig A spacing Hsq). fold search_grid.
  exists (map (pseudo_power eig A spacing) search_grid).
  split; [reflexivity|]. intros i Hi a.
  rewrite (nth_map_in _ _ _ _ 0) by (rewrite search_grid_length; exact Hi).
  split; [apply pseudo_power_infinite|].
  intros Hfin. unfold pseudo_power in *.
  rewrite (pseudo_power_denominator eig A spacing (nth i search_grid 0)) in Hfin |- *.
  fold E a in Hfin |- *.
  destruct (np_reciprocal_real (Rsum (fun c => Cnorm2 (projection E a c)) (ncols E)))
    as [[_ Hinf]|[_ Hval]].
  - apply Rsum_nonneg. intros c. apply Cnorm2_nonneg.
  - contradiction.
  - exact Hval.
Qed.

(** The covariance [diag(1, 2, 3)], the antennas 6 cm apart. *)
Lemma music_infinite_iff_orthogonal_witness :
  (1 <= nrows diag3)%nat /\ nrows diag3 = ncols diag3 /\
  exists powers,
    music eig_in_order (Finite diag3) (6 / 100) = Returned (search_grid, powers).
Proof.
  assert (H0 : (1 <= nrows diag3)%nat) by (simpl; lia).
  assert (H1 : nrows diag3 = ncols diag3) by reflexivity.
  split; [exact H0|]. split; [exact H1|].
  destruct (music_infinite_iff_orthogonal eig_in_order diag3 (6 / 100) H0 H1)
    as (powers & Hm & _).
  exists powers. exact Hm.
Defined.

(** The denominator written with the entries of [E E*]. *)
Lemma music_denominator_projector (E a : mat) :
  nrows a = nrows E ->
  music_denominator E a =
  Csum (fun j =>
          Cmul (Csum (fun i => Cmul (Cconj (at_ a i O)) (projector_entry E i j)) (nrows E))
               (at_ a j O)) (nrows E).
Proof.
  intros Hr. unfold music_denominator, projector_entry. rewrite Hr.
  apply Csum_ext. intros j _. f_equal.
  transitivity
    (Csum (fun c => Csum (fun i =>
       Cmul (Cmul (Cconj (at_ a i O)) (at_ E i c)) (Cconj (at_ E j c))) (nrows E)) (ncols E)).
  - apply Csum_ext. intros c _. symmetry. apply Csum_mul_r.
  - rewrite (Csum_swap (fun c i =>
       Cmul (Cmul (Cconj (at_ a i O)) (at_ E i c)) (Cconj (at_ E j c)))).
    apply Csum_ext. intros i _. rewrite <- Csum_mul_l.
    apply Csum_ext. intros c _. cring.
Qed.

(** X10.  The spectrum depends on the columns that [music] keeps only through
    the matrix [E E*]: two decompositions whose kept columns have the same
    [E E*] give the same grid and the same pseudo-powers. *)
Theorem music_depends_on_projector (eig1 eig2 : eig_routine) (A : mat) (spacing : R) :
  (1 <= nrows A)%nat -> nrows A = ncols A ->
  (forall i k, (i < nrows A)%nat -> (k < nrows A)%nat ->
     projector_entry (non_noise_cov_eigvecs eig1 A) i k
     = projector_entry (non_noise_cov_eigvecs eig2 A) i k) ->
  music eig1 (Finite A) spacing = music eig2 (Finite A) spacing.
Proof.
  intros _ Hsq HP. rewrite !(music_square _ A spacing Hsq).
  f_equal. f_equal. apply map_ext. intros angle. unfold pseudo_power. f_equal.
  rewrite !music_denominator_projector
    by (rewrite response_vec_nrows, Nat2Z.id; reflexivity).
  rewrite !non_noise_cov_eigvecs_nrows.
  apply Csum_ext. intros j Hj. f_equal.
  apply Csum_ext. intros i Hi. rewrite (HP i j Hi Hj). reflexivity.
Qed.

Lemma reordered_projector i k :
  (i < 3)%nat -> (k < 3)%nat ->
  projector_entry (non_noise_cov_eigvecs eig_in_order diag3) i k
  = projector_entry (non_noise_cov_eigvecs eig_reordered diag3) i k.
Proof.
  intros Hi Hk. unfold projector_entry.
  destruct i as [|[|[|i]]]; destruct k as [|[|[|k]]]; try lia;
    unfold diag3, eig_in_order, eig_reordered; simpl; cring.
Qed.

(** The covariance [diag(1, 2, 3)], decomposed in two ways. *)
Lemma music_depends_on_projector_witness :
  (1 <= nrows diag3)%nat /\ nrows diag3 = ncols diag3 /\
  (forall i k, (i < nrows diag3)%nat -> (k < nrows diag3)%nat ->
     projector_entry (non_noise_cov_eigvecs eig_in_order diag3) i k
     = projector_entry (non_noise_cov_eigvecs eig_reordered diag3) i k) /\
  music eig_in_order (Finite diag3) (6 / 100) = music eig_reordered (Finite diag3) (6 / 100).
Proof.
  assert (H0 : (1 <= nrows diag3)%nat) by (simpl; lia).
  assert (H1 : nrows diag3 = ncols diag3) by reflexivity.
  assert (H2 : forall i k, (i < nrows diag3)%nat -> (k < nrows diag3)%nat ->
     projector_entry (non_noise_cov_eigvecs eig_in_order diag3) i k
     = projector_entry (non_noise_cov_eigvecs eig_reordered diag3) i k)
    by exact reordered_projector.
  split; [exact H0|]. split; [exact H1|]. split; [exact H2|].
  exact (music_depends_on_projector eig_in_order eig_reordered diag3 (6 / 100) H0 H1 H2).
Defined.

(* ================================================================= *)
(** * Further properties of the driver *)

Lemma decibels_plottable eig A d angle :
  plottable (decibels (xreal_part (pseudo_power eig A d angle))).
Proof.
  destruct (pseudo_power_positive eig A d angle) as [-> | (p & Hp & ->)].
  - left. reflexivity.
  - right. unfold decibels, np_log10, xreal_part. simpl.
    destruct (Rlt_dec 0 p) as [_|Hn]; [|contradiction].
    eexists. reflexivity.
Qed.

Lemma search_grid_first : nth 0 search_grid 0 = -90.
Proof.
  unfold search_grid. rewrite np_linspace_nth by (unfold NUM_ANGLES_TO_SEARCH; lia).
  unfold MAX_SEARCH_ANGLE. simpl INR. lra.
Qed.

Lemma search_grid_last : nth 359 search_grid 0 = 90.
Proof.
  unfold search_grid. rewrite np_linspace_nth by (unfold NUM_ANGLES_TO_SEARCH; lia).
  unfold MAX_SEARCH_ANGLE, NUM_ANGLES_TO_SEARCH.
  replace (INR (360 - 1)) with 359 by (simpl; lra).
  replace (INR 359) with 359 by (simpl; lra). field.
Qed.

Lemma search_grid_inner p :
  (1 <= p)%nat -> (p + 1 < NUM_ANGLES_TO_SEARCH)%nat ->
  In (nth p search_grid 0) search_grid /\ -90 < nth p search_grid 0 < 90.
Proof.
  unfold NUM_ANGLES_TO_SEARCH. intros H1 H2. split.
  - apply nth_In. rewrite search_grid_length. unfold NUM_ANGLES_TO_SEARCH. lia.
  - rewrite <- search_grid_first, <- search_grid_last. split.
    + apply search_grid_increasing; unfold NUM_ANGLES_TO_SEARCH; lia.
    + apply search_grid_increasing; unfold NUM_ANGLES_TO_SEARCH; lia.
Qed.

(** What [draw_pseudo_spectrum] returns for at least one antenna and a
    positive SNR. *)
Lemma draw_returns eig n theta snr d g :
  (1 <= n)%Z -> 0 < snr ->
  exists M g',
    nrows M = Z.to_nat n /\ ncols M = Z.to_nat n /\
    (forall k, g' k = g (CTE_SAMPLES * Z.to_nat n + k)%nat) /\
    draw_pseudo_spectrum eig n theta snr d g =
    Returned (mkPlot search_grid
                (map decibels (map xreal_part (map (pseudo_power eig M (d / 100)) search_grid)))
                (peak_angles search_grid
                   (map xreal_part (map (pseudo_power eig M (d / 100)) search_grid))),
              g').
Proof.
  intros Hn Hs. unfold draw_pseudo_spectrum.
  destruct (sample_cov_column (response_vec n theta (d / 100)) snr (Z.to_nat n)
              (response_vec_column n theta (d / 100)) Hs g)
    as (M & g' & Hcov & Hr & Hc & Hg & _).
  exists M, g'. split; [exact Hr|]. split; [exact Hc|]. split; [exact Hg|].
  rewrite Hcov. cbn [bind].
  rewrite music_square by congruence. cbn [bind]. reflexivity.
Qed.

Lemma peak_angles_properties powers :
  length powers = NUM_ANGLES_TO_SEARCH ->
  StronglySorted Rlt (peak_angles search_grid powers) /\
  (forall a, In a (peak_angles search_grid powers) -> In a search_grid /\ -90 < a < 90).
Proof.
  intros Hlen. split.
  - unfold peak_angles. apply search_grid_sorted; [apply find_peaks_sorted|].
    apply Forall_forall. intros p Hp. apply find_peaks_inner in Hp. lia.
  - intros a Ha. unfold peak_angles in Ha.
    apply in_map_iff in Ha as (p & <- & Hp).
    apply find_peaks_inner in Hp as [H1 H2]. rewrite Hlen in H2.
    apply search_grid_inner; assumption.
Qed.

Lemma curve_plottable eig M d :
  Forall plottable (map decibels (map xreal_part (map (pseudo_power eig M d) search_grid))).
Proof.
  apply Forall_forall. intros v Hv.
  apply in_map_iff in Hv as (x & <- & Hx).
  apply in_map_iff in Hx as (q & <- & Hq).
  apply in_map_iff in Hq as (angle & <- & _).
  apply decibels_plottable.
Qed.

Lemma linear_powers_length eig M d :
  length (map xreal_part (map (pseudo_power eig M d) search_grid)) = NUM_ANGLES_TO_SEARCH.
Proof. rewrite !length_map. apply search_grid_length. Qed.

(** X11.  With at least one antenna and a positive SNR,
    [draw_pseudo_spectrum] runs to its end.  It plots 360 values over the
    search grid, each a number or plus infinity; the angles it marks are
    grid angles strictly between -90 and 90 degrees, in ascending order; and
    it leaves the generator 50 draws per antenna further. *)
Theorem draw_pseudo_spectrum_succeeds (eig : eig_routine) (num_antennas : Z)
    (incident_angle snr spacing : R) (g : rng) :
  (1 <= num_antennas)%Z -> 0 < snr ->
  exists pl g',
    draw_pseudo_spectrum eig num_antennas incident_angle snr spacing g
      = Returned (pl, g') /\
    plot_angles pl = search_grid /\
    length (plot_db pl) = NUM_ANGLES_TO_SEARCH /\
    Forall plottable (plot_db pl) /\
    StronglySorted Rlt (estimated_angles pl) /\
    (forall a, In a (estimated_angles pl) -> In a search_grid /\ -90 < a < 90) /\
    (forall k, g' k = g (CTE_SAMPLES * Z.to_nat num_antennas + k)%nat).
Proof.
  intros Hn Hs.
  destruct (draw_returns eig num_antennas incident_angle snr spacing g Hn Hs)
    as (M & g' & _ & _ & Hg & Hdraw).
  rewrite Hdraw. eexists. exists g'. split; [reflexivity|].
  unfold plot_angles, plot_db, estimated_angles.
  split; [reflexivity|].
  split; [rewrite length_map; apply linear_powers_length|].
  split; [apply curve_plottable|].
  split; [|split; [|exact Hg]].
  - apply peak_angles_properties, linear_powers_length.
  - apply peak_angles_properties, linear_powers_length.
Qed.

(** The default input of the notebook. *)
Lemma draw_pseudo_spectrum_succeeds_witness :
  (1 <= 5)%Z /\ 0 < 5 / 2 /\
  exists pl g',
    draw_pseudo_spectrum eig_in_order 5 60 (5 / 2) 6 alternating = Returned (pl, g') /\
    plot_angles pl = search_grid /\
    length (plot_db pl) = NUM_ANGLES_TO_SEARCH.
Proof.
  assert (H1 : (1 <= 5)%Z) by lia.
  assert (H2 : 0 < 5 / 2) by lra.
  split; [exact H1|]. split; [exact H2|].
  destruct (draw_pseudo_spectrum_succeeds eig_in_order 5 60 (5 / 2) 6 alternating H1 H2)
    as (pl & g' & Hd & Ha & Hl & _).
  exists pl, g'. split; [exact Hd|]. split; [exact Ha | exact Hl].
Defined.

(* ----------------------------------------------------------------- *)
(** ** The marked angles and the plotted curve *)

Lemma decibels_Fin p : 0 < p -> decibels (Fin p) = Fin (20 * log10 p).
Proof.
  intros Hp. unfold decibels, np_log10.
  destruct (Rlt_dec 0 p) as [_|Hn]; [reflexivity|contradiction].
Qed.

Lemma log10_lt p q : 0 < p -> 0 < q -> (20 * log10 p < 20 * log10 q <-> p < q).
Proof.
  intros Hp Hq. pose proof ln_10_pos as H10. unfold log10. split.
  - intros H. apply ln_lt_inv; try assumption.
    apply (Rmult_lt_reg_r (/ ln 10)); [apply Rinv_0_lt_compat; exact H10|].
    unfold Rdiv in H. lra.
  - intros H. apply ln_increasing in H; [|exact Hp].
    assert (ln p * / ln 10 < ln q * / ln 10)
      by (apply Rmult_lt_compat_r; [apply Rinv_0_lt_compat; exact H10 | exact H]).
    unfold Rdiv. lra.
Qed.

Lemma log10_eq p q : 0 < p -> 0 < q -> (20 * log10 p = 20 * log10 q <-> p = q).
Proof.
  intros Hp Hq. split; [|intros ->; reflexivity].
  intros H. destruct (Rtotal_order p q) as [L|[E|G]]; [|exact E|].
  - apply (log10_lt p q Hp Hq) in L. lra.
  - apply (log10_lt q p Hq Hp) in G. lra.
Qed.

Lemma log10_1 : 20 * log10 1 = 0.
Proof. unfold log10. rewrite ln_1. unfold Rdiv. ring. Qed.

Lemma Rltb_iff a b c d : (a < b <-> c < d) -> Rltb a b = Rltb c d.
Proof.
  intros H. unfold Rltb.
  destruct (Rlt_dec a b) as [L|L]; destruct (Rlt_dec c d) as [L'|L'];
    try reflexivity; exfalso; tauto.
Qed.

Lemma Reqb_iff a b c d : (a = b <-> c = d) -> Reqb a b = Reqb c d.
Proof.
  intros H. unfold Reqb.
  destruct (Req_dec_T a b) as [L|L]; destruct (Req_dec_T c d) as [L'|L'];
    try reflexivity; exfalso; tauto.
Qed.

Lemma decibels_xltb a b :
  power_value a \/ a = NaN -> power_value b \/ b = NaN ->
  xltb (decibels a) (decibels b) = xltb a b.
Proof.
  intros [[-> | (p & Hp & ->)] | ->] [[-> | (q & Hq & ->)] | ->];
    rewrite ?decibels_Fin by assumption; try reflexivity.
  simpl. apply Rltb_iff, log10_lt; assumption.
Qed.

Lemma decibels_xeqb a b :
  power_value a \/ a = NaN -> power_value b \/ b = NaN ->
  xeqb (decibels a) (decibels b) = xeqb a b.
Proof.
  intros [[-> | (p & Hp & ->)] | ->] [[-> | (q & Hq & ->)] | ->];
    rewrite ?decibels_Fin by assumption; try reflexivity.
  simpl. apply Reqb_iff, log10_eq; assumption.
Qed.

(** A power is at least 1 exactly when its decibel value is at least 0. *)
Lemma decibels_threshold a :
  power_value a \/ a = NaN -> xleb (Fin 0) (decibels a) = xleb (Fin 1) a.
Proof.
  intros [[-> | (p & Hp & ->)] | ->]; rewrite ?decibels_Fin by assumption;
    try reflexivity.
  unfold xleb. simpl. rewrite <- log10_1. f_equal.
  - apply Rltb_iff, log10_lt; lra.
  - apply Reqb_iff, log10_eq; lra.
Qed.

Lemma nth_power_value x i :
  Forall power_value x -> power_value (nth i x NaN) \/ nth i x NaN = NaN.
Proof.
  intros H. destruct (nth_in_or_default i x NaN) as [Hin|Hd]; [left|right; exact Hd].
  rewrite Forall_forall in H. apply H, Hin.
Qed.

Lemma nth_decibels x i : nth i (map decibels x) NaN = decibels (nth i x NaN).
Proof. change NaN with (decibels NaN) at 1. apply map_nth. Qed.

Lemma look_ahead_congr x y xi yi i_max :
  (forall j, xeqb (nth j y NaN) yi = xeqb (nth j x NaN) xi) ->
  forall fuel ia, look_ahead y yi i_max fuel ia = look_ahead x xi i_max fuel ia.
Proof.
  intros H. induction fuel as [|fuel IH]; intros ia; simpl; [reflexivity|].
  rewrite H, IH. reflexivity.
Qed.

Lemma local_maxima_loop_congr x y i_max :
  length y = length x ->
  (forall i j, xltb (nth i y NaN) (nth j y NaN) = xltb (nth i x NaN) (nth j x NaN)) ->
  (forall i j, xeqb (nth i y NaN) (nth j y NaN) = xeqb (nth i x NaN) (nth j x NaN)) ->
  forall fuel i, local_maxima_loop y i_max fuel i = local_maxima_loop x i_max fuel i.
Proof.
  intros Hlen Hlt Heq. induction fuel as [|fuel IH]; intros i; simpl; [reflexivity|].
  rewrite Hlen.
  rewrite (look_ahead_congr x y (nth i x NaN) (nth i y NaN) i_max)
    by (intros j; apply Heq).
  rewrite !Hlt, !IH. reflexivity.
Qed.

(** The peaks of the powers, at height 1, are the peaks of the decibel
    values, at height 0. *)
Lemma find_peaks_decibels x :
  Forall power_value x -> find_peaks (map decibels x) 0 = find_peaks x 1.
Proof.
  intros H. unfold find_peaks, local_maxima_1d. rewrite length_map.
  rewrite (local_maxima_loop_congr x (map decibels x)).
  - apply filter_ext. intros p. rewrite nth_decibels.
    apply decibels_threshold, nth_power_value, H.
  - apply length_map.
  - intros i j. rewrite !nth_decibels.
    apply decibels_xltb; apply nth_power_value, H.
  - intros i j. rewrite !nth_decibels.
    apply decibels_xeqb; apply nth_power_value, H.
Qed.

Lemma linear_powers_values eig M d :
  Forall power_value (map xreal_part (map (pseudo_power eig M d) search_grid)).
Proof.
  apply Forall_forall. intros v Hv.
  apply in_map_iff in Hv as (q & <- & Hq).
  apply in_map_iff in Hq as (angle & <- & _).
  destruct (pseudo_power_positive eig M d angle) as [-> | (p & Hp & ->)].
  - left. reflexivity.
  - right. exists p. split; [exact Hp | reflexivity].
Qed.

(** X12.  The angles that [draw_pseudo_spectrum] marks are the grid angles at
    the peaks of the curve that it plots, those that reach 0 dB: finding the
    peaks of the powers at height 1 and finding the peaks of the plotted
    decibel values at height 0 give the same positions. *)
Theorem marked_angles_are_peaks_of_the_curve (eig : eig_routine) (num_antennas : Z)
    (incident_angle snr spacing : R) (g : rng) :
  (1 <= num_antennas)%Z -> 0 < snr ->
  exists pl g',
    draw_pseudo_spectrum eig num_antennas incident_angle snr spacing g
      = Returned (pl, g') /\
    estimated_angles pl
    = map (fun peak => nth peak (plot_angles pl) 0) (find_peaks (plot_db pl) 0).
Proof.
  intros Hn Hs.
  destruct (draw_returns eig num_antennas incident_angle snr spacing g Hn Hs)
    as (M & g' & _ & _ & _ & Hdraw).
  rewrite Hdraw. eexists. exists g'. split; [reflexivity|].
  unfold plot_angles, plot_db, estimated_angles.
  rewrite find_peaks_decibels by apply linear_powers_values.
  reflexivity.
Qed.

(** The default input of the notebook. *)
Lemma marked_angles_are_peaks_of_the_curve_witness :
  (1 <= 5)%Z /\ 0 < 5 / 2 /\
  exists pl g',
    draw_pseudo_spectrum eig_in_order 5 60 (5 / 2) 6 alternating = Returned (pl, g') /\
    estimated_angles pl
    = map (fun peak => nth peak (plot_angles pl) 0) (find_peaks (plot_db pl) 0).
Proof.
  assert (H1 : (1 <= 5)%Z) by lia.
  assert (H2 : 0 < 5 / 2) by lra.
  split; [exact H1|]. split; [exact H2|].
  exact (marked_angles_are_peaks_of_the_curve eig_in_order 5 60 (5 / 2) 6 alternating H1 H2).
Defined.

(* ----------------------------------------------------------------- *)
(** ** How the marked angles lie on the grid *)

Lemma flat_top_unique x l r r' : flat_top x l r -> flat_top x l r' -> r = r'.
Proof.
  intros H H'. apply flat_top_look_ahead in H, H'. lia.
Qed.

Lemma flat_top_plateau x l r j :
  flat_top x l r -> (l <= j <= r)%nat -> nth j x NaN = nth l x NaN.
Proof.
  intros (_ & _ & _ & _ & Hflat & _) Hj.
  destruct (Nat.eq_dec j l) as [->|Hne]; [reflexivity|].
  apply xeqb_eq, Hflat. lia.
Qed.

(** Two flat tops are apart: a sample that is on neither lies between them. *)
Lemma flat_tops_apart x l1 r1 l2 r2 :
  flat_top x l1 r1 -> flat_top x l2 r2 -> (l1 < l2)%nat -> (r1 + 2 <= l2)%nat.
Proof.
  intros H1 H2 Hl.
  destruct (Nat.le_gt_cases (r1 + 2) l2) as [|Hc]; [assumption|exfalso].
  pose proof H1 as (_ & Hlr1 & _ & _ & _ & Hfall1).
  pose proof H2 as (_ & _ & _ & Hrise2 & _ & _).
  assert (Hprev : nth (l2 - 1) x NaN = nth l1 x NaN)
    by (apply (flat_top_plateau x l1 r1); [exact H1 | lia]).
  rewrite Hprev in Hrise2.
  destruct (Nat.eq_dec l2 (r1 + 1)) as [->|Hne].
  - apply xltb_asym in Hrise2. congruence.
  - assert (Hcur : nth l2 x NaN = nth l1 x NaN)
      by (apply (flat_top_plateau x l1 r1); [exact H1 | lia]).
    rewrite Hcur, xltb_irrefl in Hrise2. discriminate.
Qed.

Lemma find_peaks_separated x h p q :
  In p (find_peaks x h) -> In q (find_peaks x h) -> (p < q)%nat -> (p + 2 <= q)%nat.
Proof.
  intros Hp Hq Hpq.
  apply find_peaks_spec in Hp as [(l1 & r1 & H1 & ->) _].
  apply find_peaks_spec in Hq as [(l2 & r2 & H2 & ->) _].
  pose proof (flat_top_mid_bounds x l1 r1 H1) as [Hlo1 Hhi1].
  pose proof (flat_top_mid_bounds x l2 r2 H2) as [Hlo2 Hhi2].
  destruct (Nat.lt_trichotomy l1 l2) as [L|[E|G]].
  - pose proof (flat_tops_apart x l1 r1 l2 r2 H1 H2 L). lia.
  - subst l2. pose proof (flat_top_unique x l1 r1 r2 H1 H2). subst r2. lia.
  - pose proof (flat_tops_apart x l2 r2 l1 r1 H2 H1 G). lia.
Qed.

Lemma search_grid_nth p :
  (p < NUM_ANGLES_TO_SEARCH)%nat -> nth p search_grid 0 = -90 + INR p * (180 / 359).
Proof.
  intros Hp. unfold search_grid. rewrite np_linspace_nth by exact Hp.
  unfold MAX_SEARCH_ANGLE, NUM_ANGLES_TO_SEARCH.
  replace (INR (360 - 1)) with 359 by (simpl; lra). lra.
Qed.

Lemma peak_angles_index powers a :
  length powers = NUM_ANGLES_TO_SEARCH ->
  In a (peak_angles search_grid powers) ->
  exists p, In p (find_peaks powers 1) /\ (1 <= p)%nat /\
            (p + 1 < NUM_ANGLES_TO_SEARCH)%nat /\ a = -90 + INR p * (180 / 359).
Proof.
  intros Hlen Ha. unfold peak_angles in Ha.
  apply in_map_iff in Ha as (p & <- & Hp). exists p.
  pose proof (find_peaks_inner powers 1 p Hp) as [H1 H2]. rewrite Hlen in H2.
  split; [exact Hp|]. split; [exact H1|]. split; [exact H2|].
  apply search_grid_nth. lia.
Qed.

(** X13.  Two angles that are marked on the same plot are at least two grid
    steps apart, that is [360/359] of a degree: no two neighbouring grid
    points are both marked. *)
Theorem marked_angles_are_apart (powers : list xreal) (a b : R) :
  length powers = NUM_ANGLES_TO_SEARCH ->
  In a (peak_angles search_grid powers) -> In b (peak_angles search_grid powers) ->
  a < b -> 360 / 359 <= b - a.
Proof.
  intros Hlen Ha Hb Hab.
  destruct (peak_angles_index powers a Hlen Ha) as (p & Hp & _ & Hp2 & ->).
  destruct (peak_angles_index powers b Hlen Hb) as (q & Hq & _ & Hq2 & ->).
  assert (Hpq : (p < q)%nat).
  { destruct (Nat.lt_ge_cases p q) as [|Hge]; [assumption|exfalso].
    apply le_INR in Hge. lra. }
  pose proof (find_peaks_separated powers 1 p q Hp Hq Hpq) as Hsep.
  apply le_INR in Hsep. rewrite plus_INR in Hsep. simpl in Hsep. lra.
Qed.

Lemma two_peaks_marked p :
  p = 1%nat \/ p = 3%nat -> In (nth p search_grid 0) (peak_angles search_grid two_peaks).
Proof.
  intros Hp. unfold peak_angles.
  apply (in_map (fun peak => nth peak search_grid 0)).
  apply find_peaks_spec. split.
  - apply strict_maximum_flat_top.
    + lia.
    + assert (length two_peaks = 360%nat) by reflexivity. lia.
    + destruct Hp as [-> | ->]; unfold two_peaks; simpl; apply Rltb_true; lra.
    + destruct Hp as [-> | ->]; unfold two_peaks; simpl; apply Rltb_true; lra.
  - destruct Hp as [-> | ->]; unfold two_peaks, xleb; simpl;
      replace (Rltb 1 2) with true by (symmetry; apply Rltb_true; lra); reflexivity.
Qed.

(** Two peaks, at the grid points 1 and 3. *)
Lemma marked_angles_are_apart_witness :
  length two_peaks = NUM_ANGLES_TO_SEARCH /\
  In (nth 1 search_grid 0) (peak_angles search_grid two_peaks) /\
  In (nth 3 search_grid 0) (peak_angles search_grid two_peaks) /\
  nth 1 search_grid 0 < nth 3 search_grid 0 /\
  360 / 359 <= nth 3 search_grid 0 - nth 1 search_grid 0.
Proof.
  assert (H1 : length two_peaks = NUM_ANGLES_TO_SEARCH) by reflexivity.
  assert (H2 : In (nth 1 search_grid 0) (peak_angles search_grid two_peaks))
    by (apply two_peaks_marked; left; reflexivity).
  assert (H3 : In (nth 3 search_grid 0) (peak_angles search_grid two_peaks))
    by (apply two_peaks_marked; right; reflexivity).
  assert (H4 : nth 1 search_grid 0 < nth 3 search_grid 0)
    by (apply search_grid_increasing; unfold NUM_ANGLES_TO_SEARCH; lia).
  split; [exact H1|]. split; [exact H2|]. split; [exact H3|]. split; [exact H4|].
  exact (marked_angles_are_apart two_peaks _ _ H1 H2 H3 H4).
Defined.

(* ----------------------------------------------------------------- *)
(** ** A spectrum with one hump *)

Lemma find_peaks_one_hump x h m :
  (1 <= m)%nat -> (m + 1 < length x)%nat ->
  (forall i, (1 <= i <= m)%nat -> xltb (nth (i - 1) x NaN) (nth i x NaN) = true) ->
  (forall i, (m <= i)%nat -> (i + 1 < length x)%nat ->
     xltb (nth (i + 1) x NaN) (nth i x NaN) = true) ->
  xleb (Fin h) (nth m x NaN) = true ->
  find_peaks x h = [m].
Proof.
  intros Hm Hlen Hup Hdown Hh.
  apply singleton_of_sorted; [apply find_peaks_sorted|].
  intros p. rewrite find_peaks_spec. split.
  - intros [(l & r & Htop & ->) _].
    pose proof Htop as (Hl & Hlr & Hr & Hrise & Hflat & Hfall).
    assert (Hlm : (l <= m)%nat).
    { destruct (Nat.le_gt_cases l m) as [|Hc]; [assumption|exfalso].
      specialize (Hdown (l - 1)%nat ltac:(lia) ltac:(lia)).
      replace (l - 1 + 1)%nat with l in Hdown by lia.
      apply xltb_asym in Hdown. congruence. }
    assert (Hmr : (m <= r)%nat).
    { destruct (Nat.le_gt_cases m r) as [|Hc]; [assumption|exfalso].
      specialize (Hup (r + 1)%nat ltac:(lia)).
      replace (r + 1 - 1)%nat with r in Hup by lia.
      rewrite (flat_top_plateau x l r r Htop) in Hup by lia.
      apply xltb_asym in Hup. congruence. }
    assert (Hone : l = r).
    { destruct (Nat.eq_dec l r) as [|Hne]; [assumption|exfalso].
      assert (Heq : nth (l + 1) x NaN = nth l x NaN)
        by (apply (flat_top_plateau x l r); [exact Htop | lia]).
      destruct (Nat.le_gt_cases (l + 1) m) as [Hle|Hgt].
      - specialize (Hup (l + 1)%nat ltac:(lia)).
        replace (l + 1 - 1)%nat with l in Hup by lia.
        rewrite Heq, xltb_irrefl in Hup. discriminate.
      - specialize (Hdown l ltac:(lia) ltac:(lia)).
        rewrite Heq, xltb_irrefl in Hdown. discriminate. }
    subst r. assert (l = m) by lia. subst l.
    replace (m + m)%nat with (m * 2)%nat by lia. apply Nat.div_mul. lia.
  - intros ->. split; [|exact Hh].
    apply strict_maximum_flat_top; try assumption.
    + apply Hup. lia.
    + apply Hdown; lia.
Qed.

(** X14.  On powers that rise strictly up to one position and fall strictly
    after it, exactly one angle is marked, the grid angle of that position,
    provided the power there is at least 1. *)
Theorem one_hump_one_angle (grid : list R) (powers : list xreal) (m : nat) :
  (1 <= m)%nat -> (m + 1 < length powers)%nat ->
  (forall i, (1 <= i <= m)%nat ->
     xltb (nth (i - 1) powers NaN) (nth i powers NaN) = true) ->
  (forall i, (m <= i)%nat -> (i + 1 < length powers)%nat ->
     xltb (nth (i + 1) powers NaN) (nth i powers NaN) = true) ->
  xleb (Fin 1) (nth m powers NaN) = true ->
  peak_angles grid powers = [nth m grid 0].
Proof.
  intros Hm Hlen Hup Hdown Hh. unfold peak_angles.
  rewrite (find_peaks_one_hump powers 1 m Hm Hlen Hup Hdown Hh). reflexivity.
Qed.

Lemma Rltb_is_true a b : a < b -> Rltb a b = true.
Proof. apply Rltb_true. Qed.

(** Three powers, the middle one the largest. *)
Lemma one_hump_one_angle_witness :
  (1 <= 1)%nat /\ (1 + 1 < length one_hump)%nat /\
  peak_angles [-1; 0; 1] one_hump = [nth 1 [-1; 0; 1] 0].
Proof.
  assert (H1 : (1 <= 1)%nat) by lia.
  assert (H2 : (1 + 1 < length one_hump)%nat) by (simpl; lia).
  assert (H3 : forall i, (1 <= i <= 1)%nat ->
            xltb (nth (i - 1) one_hump NaN) (nth i one_hump NaN) = true).
  { intros i Hi. assert (i = 1%nat) by lia. subst i. simpl.
    apply Rltb_is_true. lra. }
  assert (H4 : forall i, (1 <= i)%nat -> (i + 1 < length one_hump)%nat ->
            xltb (nth (i + 1) one_hump NaN) (nth i one_hump NaN) = true).
  { intros i Hi Hl. simpl in Hl. assert (i = 1%nat) by lia. subst i. simpl.
    apply Rltb_is_true. lra. }
  assert (H5 : xleb (Fin 1) (nth 1 one_hump NaN) = true).
  { unfold xleb. simpl. rewrite (Rltb_is_true 1 2) by lra. reflexivity. }
  split; [exact H1|]. split; [exact H2|].
  exact (one_hump_one_angle [-1; 0; 1] one_hump 1 H1 H2 H3 H4 H5).
Defined.

(* ----------------------------------------------------------------- *)
(** ** The grid and whole degrees *)

Lemma inner_grid_angle_not_whole (p : nat) (z : Z) :
  (1 <= p)%nat -> (p + 1 < NUM_ANGLES_TO_SEARCH)%nat ->
  -90 + INR p * (180 / 359) <> IZR z.
Proof.
  unfold NUM_ANGLES_TO_SEARCH. intros H1 H2 H.
  assert (HZ : (180 * Z.of_nat p = 359 * (z + 90))%Z).
  { apply eq_IZR. rewrite !mult_IZR, plus_IZR, <- INR_IZR_INZ. lra. }
  assert (Hdiv : (359 | Z.of_nat p)%Z).
  { apply (Z.gauss 359 180); [exists (z + 90)%Z; lia | reflexivity]. }
  apply Z.divide_pos_le in Hdiv; lia.
Qed.

(** X15.  No marked angle is a whole number of degrees: the 360 grid points
    divide 180 degrees into 359 steps, and 359 is prime to 180, so only the
    two end points of the grid, which are never marked, are whole. *)
Theorem marked_angles_are_not_whole_degrees (powers : list xreal) (a : R) (z : Z) :
  length powers = NUM_ANGLES_TO_SEARCH ->
  In a (peak_angles search_grid powers) ->
  a <> IZR z.
Proof.
  intros Hlen Ha.
  destruct (peak_angles_index powers a Hlen Ha) as (p & _ & Hp1 & Hp2 & ->).
  apply inner_grid_angle_not_whole; assumption.
Qed.

(** The spectrum with the low peak: its marked angle is not -89 degrees. *)
Lemma marked_angles_are_not_whole_degrees_witness :
  length low_peak = NUM_ANGLES_TO_SEARCH /\
  In (nth 1 search_grid 0) (peak_angles search_grid low_peak) /\
  nth 1 search_grid 0 <> IZR (-89).
Proof.
  assert (H1 : length low_peak = NUM_ANGLES_TO_SEARCH) by reflexivity.
  assert (H2 : In (nth 1 search_grid 0) (peak_angles search_grid low_peak)).
  { unfold peak_angles. rewrite find_peaks_low_peak. left. reflexivity. }
  split; [exact H1|]. split; [exact H2|].
  exact (marked_angles_are_not_whole_degrees low_peak _ (-89) H1 H2).
Defined.

(* ================================================================= *)
(** * Spacings below half a wavelength *)

Lemma cos_one_zero t : - (2 * PI) < t < 2 * PI -> cos t = 1 -> t = 0.
Proof.
  intros [Hlo Hhi] Hc. pose proof PI_RGT_0 as Hpi.
  assert (Hs : sin (t / 2) = 0).
  { replace t with (2 * (t / 2)) in Hc by field.
    rewrite cos_2a_sin in Hc. nra. }
  apply sin_eq_0_0 in Hs as [k Hk].
  assert (Hk0 : k = 0%Z).
  { assert (IZR (-1) < IZR k) by (apply (Rmult_lt_reg_r PI); [lra|]; simpl; lra).
    assert (IZR k < IZR 1) by (apply (Rmult_lt_reg_r PI); [lra|]; simpl; lra).
    apply lt_IZR in H, H0. lia. }
  subst k. simpl in Hk. lra.
Qed.

Lemma sin_injective_quadrants x y :
  - (PI / 2) <= x <= PI / 2 -> - (PI / 2) <= y <= PI / 2 -> sin x = sin y -> x = y.
Proof.
  intros [Hx1 Hx2] [Hy1 Hy2] H.
  destruct (Rtotal_order x y) as [L|[E|G]]; [exfalso|exact E|exfalso].
  - pose proof (sin_increasing_1 x y Hx1 Hx2 Hy1 Hy2 L). lra.
  - pose proof (sin_increasing_1 y x Hy1 Hy2 Hx1 Hx2 G). lra.
Qed.

Lemma deg2rad_range theta : -90 <= theta <= 90 -> - (PI / 2) <= deg2rad theta <= PI / 2.
Proof.
  intros [H1 H2]. pose proof PI_RGT_0 as Hpi. unfold deg2rad. split; nra.
Qed.

Lemma deg2rad_injective a b : deg2rad a = deg2rad b -> a = b.
Proof.
  unfold deg2rad. intros H. pose proof PI_RGT_0 as Hpi.
  apply (Rmult_eq_reg_r (PI / 180)); [exact H | lra].
Qed.

(** X16.  No aliasing below half a wavelength: when the spacing is positive
    and less than half the wavelength, two angles between -90 and 90 degrees
    whose steering vectors agree on the second antenna are the same angle. *)
Theorem response_vec_unambiguous (num_antennas : Z) (angle1 angle2 spacing : R) :
  (2 <= num_antennas)%Z ->
  0 < spacing < CTE_WAVELENGTH / 2 ->
  -90 <= angle1 <= 90 -> -90 <= angle2 <= 90 ->
  at_ (response_vec num_antennas angle1 spacing) 1 0
    = at_ (response_vec num_antennas angle2 spacing) 1 0 ->
  angle1 = angle2.
Proof.
  intros Hn [Hd1 Hd2] Ha1 Ha2 H.
  rewrite !response_vec_entry in H by lia.
  rewrite !steering_entry_phase in H.
  injection H as Hcos Hsin.
  pose proof CTE_WAVELENGTH_pos as Hw. pose proof PI_RGT_0 as Hpi.
  set (s1 := sin (deg2rad angle1)) in *. set (s2 := sin (deg2rad angle2)) in *.
  assert (Hb1 : -1 <= s1 <= 1) by apply SIN_bound.
  assert (Hb2 : -1 <= s2 <= 1) by apply SIN_bound.
  set (p1 := phase angle1 _) in *.
  set (p2 := phase angle2 _) in *.
  assert (Hdiff : p1 - p2 = 2 * PI * (spacing / CTE_WAVELENGTH) * (s1 - s2)).
  { unfold p1, p2, phase. fold s1 s2. simpl INR. field. lra. }
  assert (Hratio : 0 < spacing / CTE_WAVELENGTH < 1 / 2).
  { split.
    - apply Rdiv_lt_0_compat; lra.
    - apply (Rmult_lt_reg_r CTE_WAVELENGTH); [lra|].
      replace (spacing / CTE_WAVELENGTH * CTE_WAVELENGTH) with spacing by (field; lra).
      lra. }
  assert (Hone : cos (p1 - p2) = 1).
  { rewrite cos_minus, Hcos, Hsin.
    generalize (sin2_cos2 p2). unfold Rsqr. lra. }
  assert (Hzero : p1 - p2 = 0).
  { apply cos_one_zero; [|exact Hone]. rewrite Hdiff.
    set (q := spacing / CTE_WAVELENGTH) in *.
    assert (Hq : -1 < q * (s1 - s2) < 1).
    { destruct (Rle_or_lt 0 (s1 - s2)) as [Hpos | Hneg].
      - assert (0 <= q * (s1 - s2)) by (apply Rmult_le_pos; lra).
        assert (q * (s1 - s2) <= q * 2) by (apply Rmult_le_compat_l; lra).
        lra.
      - assert (q * (s1 - s2) < 0) by nra.
        assert (q * (-2) <= q * (s1 - s2)) by (apply Rmult_le_compat_l; lra).
        lra. }
    replace (2 * PI * q * (s1 - s2)) with (2 * PI * (q * (s1 - s2))) by ring.
    split; nra. }
  assert (Hs : s1 = s2).
  { rewrite Hdiff in Hzero.
    set (q := spacing / CTE_WAVELENGTH) in *.
    assert (2 * PI * q <> 0) by nra.
    assert (s1 - s2 = 0) by (apply (Rmult_eq_reg_l (2 * PI * q)); [lra | assumption]).
    lra. }
  apply deg2rad_injective, sin_injective_quadrants; try apply deg2rad_range; assumption.
Qed.

(** The default spacing of the notebook, 6 cm, is below half the wavelength. *)
Lemma response_vec_unambiguous_witness :
  (2 <= 5)%Z /\ 0 < 6 / 100 < CTE_WAVELENGTH / 2 /\
  -90 <= 60 <= 90 /\
  at_ (response_vec 5 60 (6 / 100)) 1 0 = at_ (response_vec 5 60 (6 / 100)) 1 0 /\
  60 = 60.
Proof.
  assert (H1 : (2 <= 5)%Z) by lia.
  assert (H2 : 0 < 6 / 100 < CTE_WAVELENGTH / 2).
  { unfold CTE_WAVELENGTH. rewrite CTE_FREQUENCY_value. unfold speed_of_light.
    split; lra. }
  assert (H3 : -90 <= 60 <= 90) by (split; lra).
  assert (H4 : at_ (response_vec 5 60 (6 / 100)) 1 0
               = at_ (response_vec 5 60 (6 / 100)) 1 0) by reflexivity.
  split; [exact H1|]. split; [exact H2|]. split; [exact H3|]. split; [exact H4|].
  exact (response_vec_unambiguous 5 60 60 (6 / 100) H1 H2 H3 H3 H4).
Defined.
